(** * HomeApp: the name-claiming protocol and the shopping list

    A shallow embedding of the handlers of the onboarding screen
    ([createByName], [joinByName]), of the home tab ([saveRename]) and of
    the shopping tab ([addItem]), together with the name normalizer
    [toNameKey] they share, and the properties of the design document
    that concern them. *)

From stdpp Require Import base option list gmap strings.
From Stdlib Require Import NArith Ascii Lia.

Open Scope list_scope.

(** ** JavaScript strings *)

Module JS.

(** A JavaScript string is a sequence of UTF-16 code units; [length],
    [slice] and the character classes of a regular expression without the
    [u] flag all work on code units. *)
Abbreviation jsstring := (list N) (only parsing).

(** A literal of the source text, for the examples. *)
Definition str (s : string) : jsstring :=
  map (fun a => N.of_nat (nat_of_ascii a)) (String.list_ascii_of_string s).

Definition hyphen : N := 45%N.

Definition isHyphen (c : N) : bool := (c =? hyphen)%N.

(** [\s] of a regular expression, which is also what [String.prototype.trim]
    removes: the WhiteSpace and LineTerminator code points. *)
Definition isSpace (c : N) : bool :=
  ((9 <=? c) && (c <=? 13) || (c =? 32) || (c =? 160) || (c =? 5760)
   || (8192 <=? c) && (c <=? 8202) || (c =? 8232) || (c =? 8233)
   || (c =? 8239) || (c =? 8287) || (c =? 12288) || (c =? 65279))%N.

(** The class [[a-z0-9-]]. *)
Definition isKeyChar (c : N) : bool :=
  ((97 <=? c) && (c <=? 122) || (48 <=? c) && (c <=? 57) || (c =? hyphen))%N.

Definition isAscii (c : N) : bool := (c <? 128)%N.

Definition asciiLower (c : N) : N :=
  if ((65 <=? c) && (c <=? 90))%N then (c + 32)%N else c.

(** [String.prototype.toLowerCase] follows the Unicode case mapping, which
    is context sensitive and may change the length of a string.  The
    development depends on it only through what it does to a string of
    ASCII code units. *)
Class Lowercase := {
  toLowerCase : jsstring -> jsstring;
  toLowerCase_ascii :
    forall s, forallb isAscii s = true -> toLowerCase s = map asciiLower s
}.

(** The case mapping restricted to Basic Latin; other code units are kept. *)
#[export] Instance basicLatin : Lowercase | 100 :=
  {| toLowerCase := map asciiLower;
     toLowerCase_ascii := fun s _ => eq_refl |}.

Section Scanning.
Variable p : N -> bool.

Fixpoint dropWhile (s : jsstring) : jsstring :=
  match s with
  | [] => []
  | c :: r => if p c then dropWhile r else s
  end.

Fixpoint dropWhileEnd (s : jsstring) : jsstring :=
  match s with
  | [] => []
  | c :: r =>
      match dropWhileEnd r with
      | [] => if p c then [] else [c]
      | r' => c :: r'
      end
  end.

(** [s.replace(/P+/g, rep)] for a character class [P]: every maximal run
    of code units of the class is replaced by one [rep].  [inRun] tells
    that the code unit before the current one was in the class. *)
Fixpoint replaceRunsFrom (rep : N) (inRun : bool) (s : jsstring) : jsstring :=
  match s with
  | [] => []
  | c :: r =>
      if p c
      then (if inRun then replaceRunsFrom rep true r
            else rep :: replaceRunsFrom rep true r)
      else c :: replaceRunsFrom rep false r
  end.

Definition replaceRuns (rep : N) (s : jsstring) : jsstring :=
  replaceRunsFrom rep false s.

(** No two neighbours both in the class. *)
Fixpoint noRepeat (s : jsstring) : bool :=
  match s with
  | c :: r =>
      match r with
      | d :: _ => negb (p c && p d) && noRepeat r
      | [] => true
      end
  | [] => true
  end.

(** The first code unit, if there is one, is not in the class. *)
Definition headOutside (s : jsstring) : bool :=
  match s with c :: _ => negb (p c) | [] => true end.

End Scanning.

(** [s.trim()] *)
Definition trim (s : jsstring) : jsstring :=
  dropWhileEnd isSpace (dropWhile isSpace s).

(** [s.replace(/[^a-z0-9-]/g, "")] *)
Definition stripNonKey (s : jsstring) : jsstring := filter (fun c => isKeyChar c = true) s.

(** [s.replace(/^-|-$/g, "")]: the first alternative matches a hyphen at
    index 0, the second a hyphen at the last index, provided the first
    match has not consumed it. *)
Definition dropFirstHyphen (s : jsstring) : jsstring :=
  match s with
  | c :: r => if isHyphen c then r else s
  | [] => []
  end.

Fixpoint dropLastHyphen (s : jsstring) : jsstring :=
  match s with
  | [] => []
  | [c] => if isHyphen c then [] else [c]
  | c :: r => c :: dropLastHyphen r
  end.

Definition stripEdgeHyphens (s : jsstring) : jsstring :=
  dropLastHyphen (dropFirstHyphen s).

(** [s.slice(0, n)] *)
Definition slice0 (n : nat) (s : jsstring) : jsstring := take n s.

(** JavaScript truthiness of a string, and of a [string | null]. *)
Definition truthy (s : jsstring) : bool :=
  match s with [] => false | _ => true end.

Definition truthyOpt (o : option jsstring) : bool :=
  match o with Some s => truthy s | None => false end.

End JS.

(** ** The name normalizer *)

Module NameKey.
Import JS.

(** [toNameKey] of the onboarding screen and of the home tab (the two
    files define it with the same text). *)
Definition toNameKey `{Lowercase} (s : jsstring) : jsstring :=
  slice0 40
    (stripEdgeHyphens
       (replaceRuns isHyphen hyphen
          (stripNonKey
             (replaceRuns isSpace hyphen
                (toLowerCase (trim s)))))).

(** The string [toNameKey] cuts to 40 code units. *)
Definition untruncated `{Lowercase} (s : jsstring) : jsstring :=
  stripEdgeHyphens
    (replaceRuns isHyphen hyphen
       (stripNonKey (replaceRuns isSpace hyphen (toLowerCase (trim s))))).

(** The normalizer in the words of the design document: trim whitespace,
    lowercase, collapse each run of whitespace to a single hyphen, strip
    every character outside [[a-z0-9-]], collapse repeated hyphens, trim
    leading and trailing hyphens, truncate to 40 characters.  Each step is
    written from its description, not from the regular expression of the
    source. *)
Module Reference.

(** A member of the class that is followed by another one is dropped; the
    last one of a run becomes [rep]. *)
Fixpoint squeeze (p : N -> bool) (rep : N) (s : jsstring) : jsstring :=
  match s with
  | [] => []
  | c :: r =>
      if p c
      then match r with
           | d :: _ => if p d then squeeze p rep r else rep :: squeeze p rep r
           | [] => [rep]
           end
      else c :: squeeze p rep r
  end.

Definition trimWhitespace (s : jsstring) : jsstring :=
  dropWhileEnd isSpace (dropWhile isSpace s).

Definition collapseWhitespace (s : jsstring) : jsstring := squeeze isSpace hyphen s.

Definition stripOutside (s : jsstring) : jsstring :=
  filter (fun c => isKeyChar c = true) s.

Definition collapseHyphens (s : jsstring) : jsstring := squeeze isHyphen hyphen s.

Definition trimHyphens (s : jsstring) : jsstring :=
  dropWhileEnd isHyphen (dropWhile isHyphen s).

Definition truncate (n : nat) (s : jsstring) : jsstring := take n s.

Definition normalize `{Lowercase} (s : jsstring) : jsstring :=
  truncate 40
    (trimHyphens
       (collapseHyphens
          (stripOutside
             (collapseWhitespace
                (toLowerCase (trimWhitespace s)))))).

End Reference.

(** The pattern [^[a-z0-9]([a-z0-9-]{0,38}[a-z0-9])?$] as a test on code
    units: between 1 and 40 of them, all of the class [[a-z0-9-]], the
    first and the last not a hyphen. *)
Definition matchesKeyPattern (k : jsstring) : bool :=
  (1 <=? length k) && (length k <=? 40)
  && forallb isKeyChar k
  && negb (isHyphen (hd hyphen k))
  && negb (isHyphen (List.last k hyphen)).

End NameKey.

(** ** The document store *)

Module Firestore.
Import JS.

Abbreviation DocId := (list N) (only parsing).
Definition Timestamp := N.

(** A document of the collection [homepages]. Every field may be absent:
    a merge into a missing document creates one without [createdAt]. *)
Record HomePage := {
  createdAt : option Timestamp;
  name : option jsstring;
  nameKey : option jsstring
}.

(** The two collections of the protocol.  A document of [homepagesByName]
    has the single field [homePageId]; the map stores its value under the
    document id, which is the name key. *)
Record Db := {
  homepages : gmap (list N) HomePage;
  homepagesByName : gmap (list N) (list N)
}.

Inductive Ref :=
| HomePageRef (id : DocId)
| ByNameRef (key : jsstring).

(** What a handler asks of the store, in the order it asks. *)
Inductive Op :=
| Get (r : Ref)
| Put (r : Ref)
| Del (r : Ref).

(** The writes the handlers buffer in a transaction. *)
Inductive Write :=
| SetHomePage (id : DocId) (n k : jsstring)
    (* tx.set(hpRef, { createdAt: serverTimestamp(), name, nameKey }) *)
| MergeHomePage (id : DocId) (n k : jsstring)
    (* tx.set(hpRef, { name, nameKey }, { merge: true }) *)
| MergeByName (key : jsstring) (id : DocId)
    (* tx.set(mapRef, { homePageId }, { merge: true }) *)
| DeleteByName (key : jsstring).
    (* tx.delete(mapRef) *)

Definition applyWrite (now : Timestamp) (db : Db) (w : Write) : Db :=
  match w with
  | SetHomePage id n k =>
      {| homepages :=
           <[id := {| createdAt := Some now; name := Some n; nameKey := Some k |}]>
             (homepages db);
         homepagesByName := homepagesByName db |}
  | MergeHomePage id n k =>
      {| homepages :=
           <[id := {| createdAt := (homepages db !! id) ≫= createdAt;
                      name := Some n; nameKey := Some k |}]>
             (homepages db);
         homepagesByName := homepagesByName db |}
  | MergeByName key id =>
      {| homepages := homepages db;
         homepagesByName := <[key := id]> (homepagesByName db) |}
  | DeleteByName key =>
      {| homepages := homepages db;
         homepagesByName := delete key (homepagesByName db) |}
  end.

Definition commit (now : Timestamp) (db : Db) (ws : list Write) : Db :=
  foldl (applyWrite now) db ws.

(** Firestore wants the reads of a transaction before its writes: under
    [ReadsFirst] a [get] that follows a write rejects the transaction.
    [AsWritten] is the plain atomic store of the design document, which
    runs the body as it is written.  A statement that quantifies over the
    rule holds for both. *)
Inductive ReadRule := ReadsFirst | AsWritten.

Inductive TxError :=
| Thrown (message : string)
| ReadAfterWrite.

Definition readAfterWriteMsg : string :=
  "Firestore transactions require all reads to be executed before all writes.".

Definition errorMessage (e : TxError) : string :=
  match e with
  | Thrown m => m
  | ReadAfterWrite => readAfterWriteMsg
  end.

(** The state of a running transaction: the store it reads from, the
    writes it has buffered, and what it has asked so far. *)
Record TxState := {
  snapshot : Db;
  writes : list Write;
  log : list Op
}.

Definition Tx (A : Type) : Type := TxState -> TxState * (TxError + A).

Definition ret {A} (a : A) : Tx A := fun s => (s, inr a).

Definition bind {A B} (m : Tx A) (f : A -> Tx B) : Tx B :=
  fun s =>
    match m s with
    | (s', inr a) => f a s'
    | (s', inl e) => (s', inl e)
    end.

Definition throw {A} (message : string) : Tx A := fun s => (s, inl (Thrown message)).

Definition logged (o : Op) (s : TxState) : TxState :=
  {| snapshot := snapshot s; writes := writes s; log := log s ++ [o] |}.

Definition buffered (o : Op) (w : Write) (s : TxState) : TxState :=
  {| snapshot := snapshot s; writes := writes s ++ [w]; log := log s ++ [o] |}.

(** [tx.get] of a [homepagesByName] document: [None] when
    [snap.exists()] is false, else the [homePageId] of [snap.data()]. *)
Definition txGet (rule : ReadRule) (key : jsstring) : Tx (option DocId) :=
  fun s =>
    let s' := logged (Get (ByNameRef key)) s in
    match rule, writes s with
    | ReadsFirst, _ :: _ => (s', inl ReadAfterWrite)
    | _, _ => (s', inr (homepagesByName (snapshot s) !! key))
    end.

Definition txSetHomePage (id : DocId) (n k : jsstring) : Tx unit :=
  fun s => (buffered (Put (HomePageRef id)) (SetHomePage id n k) s, inr tt).

Definition txMergeHomePage (id : DocId) (n k : jsstring) : Tx unit :=
  fun s => (buffered (Put (HomePageRef id)) (MergeHomePage id n k) s, inr tt).

Definition txMergeByName (key : jsstring) (id : DocId) : Tx unit :=
  fun s => (buffered (Put (ByNameRef key)) (MergeByName key id) s, inr tt).

Definition txDeleteByName (key : jsstring) : Tx unit :=
  fun s => (buffered (Del (ByNameRef key)) (DeleteByName key) s, inr tt).

Definition begin (db : Db) : TxState :=
  {| snapshot := db; writes := []; log := [] |}.

(** [runTransaction(db, body)]: the writes are applied together when the
    body returns and not at all when it throws. *)
Definition runTransaction {A} (now : Timestamp) (db : Db) (body : Tx A)
  : Db * (TxError + A) :=
  match body (begin db) with
  | (s, inr a) => (commit now db (writes s), inr a)
  | (_, inl e) => (db, inl e)
  end.

(** What the body of a transaction asks of the store, up to its return or
    its failure. *)
Definition traceOf {A} (db : Db) (body : Tx A) : list Op :=
  log (fst (body (begin db))).

Definition isRead (o : Op) : bool :=
  match o with Get _ => true | _ => false end.

(** No read after a write. *)
Fixpoint readsBeforeWrites (l : list Op) : bool :=
  match l with
  | [] => true
  | o :: r => if isRead o then readsBeforeWrites r else forallb (fun o' => negb (isRead o')) r
  end.

End Firestore.

Declare Scope tx_scope.
Delimit Scope tx_scope with tx.
Notation "'let*' x := m 'in' k" := (Firestore.bind m (fun x => k))
  (at level 10, x name, m at level 100, k at level 200) : tx_scope.

(** ** The onboarding screen *)

Module Onboarding.
Import JS NameKey Firestore.
Local Open Scope tx_scope.
Local Open Scope string_scope.

(** What a handler leaves on the screen. *)
Inductive Outcome :=
| Entered (id : DocId)                   (* id saved, router.replace("/(home)/home") *)
| Alerted (title : string) (message : jsstring)  (* Alert.alert(title, message) *)
| Ignored.                               (* plain return *)

(** The store and the device's [AsyncStorage] entry [homePageId]. *)
Record World := {
  db : Db;
  saved : option DocId
}.

(** What a handler returns: the world after it, what the user sees, and
    the requests it made to the store. *)
Record Result := {
  world : World;
  outcome : Outcome;
  requests : list Op
}.

Definition nameTaken : string :=
  "That name is already taken. Pick a different one.".

(** The body of the transaction of [createByName]; [autoId] is the id of
    [doc(collection(db, homepages))], which the SDK draws at random. *)
Definition createTx (rule : ReadRule) (autoId : DocId) (n key : jsstring) : Tx DocId :=
  let* mapSnap := txGet rule key in
  match mapSnap with
  | Some _ => throw nameTaken
  | None =>
      let* _ := txSetHomePage autoId n key in
      let* _ := txMergeByName key autoId in
      ret autoId
  end.

Definition createByName `{Lowercase} (rule : ReadRule) (autoId : DocId)
    (now : Timestamp) (createName : jsstring) (w : World) : Result :=
  let n := trim createName in
  let key := toNameKey n in
  if negb (truthy n) || negb (truthy key)
  then {| world := w;
          outcome := Alerted "Invalid name"
                       (str "Please enter a valid name (letters/numbers/spaces).");
          requests := [] |}
  else
    let body := createTx rule autoId n key in
    match runTransaction now (db w) body with
    | (db', inr id) =>
        {| world := {| db := db'; saved := Some id |};
           outcome := Entered id;
           requests := traceOf (db w) body |}
    | (_, inl e) =>
        {| world := w;
           outcome := Alerted "Create failed" (str (errorMessage e));
           requests := traceOf (db w) body |}
    end.

Definition joinByName `{Lowercase} (joinName : jsstring) (w : World) : Result :=
  let key := toNameKey joinName in
  if negb (truthy key)
  then {| world := w;
          outcome := Alerted "Invalid name" (str "Enter a valid HomePage name.");
          requests := [] |}
  else
    match homepagesByName (db w) !! key with
    | None =>
        {| world := w;
           outcome := Alerted "Not found" (str "No HomePage with that name.");
           requests := [Get (ByNameRef key)] |}
    | Some homePageId =>
        {| world := {| db := db w; saved := Some homePageId |};
           outcome := Entered homePageId;
           requests := [Get (ByNameRef key)] |}
    end.

(** The failures of the design document, read off what the user sees. *)
Inductive Failure := InvalidName | NameTaken | NotFound | BackendUnavailable.

Definition failureOf (o : Outcome) : option Failure :=
  match o with
  | Alerted title message =>
      if decide (title = "Invalid name") then Some InvalidName
      else if decide (title = "Not found") then Some NotFound
      else if decide (title = "Saved") then None
      else if decide (message = str nameTaken) then Some NameTaken
      else Some BackendUnavailable
  | _ => None
  end.

End Onboarding.

(** ** The home tab *)

Module HomeTab.
Import JS NameKey Firestore Onboarding.
Local Open Scope tx_scope.
Local Open Scope string_scope.

(** The body of the transaction of [saveRename]. [homePageKey] is the
    key the screen last received from its subscription, or [None]. *)
Definition renameTx (rule : ReadRule) (homePageId : DocId) (n newKey : jsstring)
    (homePageKey : option jsstring) : Tx unit :=
  let* newKeySnap := txGet rule newKey in
  let* _ :=
    match newKeySnap with
    | Some mapped =>
        if decide (mapped = homePageId) then ret tt else throw nameTaken
    | None => ret tt
    end in
  let* _ := txMergeHomePage homePageId n newKey in
  let* _ := txMergeByName newKey homePageId in
  match homePageKey with
  | Some oldKey =>
      if truthy oldKey && negb (bool_decide (oldKey = newKey))
      then
        let* oldKeySnap := txGet rule oldKey in
        match oldKeySnap with
        | Some mappedOld =>
            if decide (mappedOld = homePageId) then txDeleteByName oldKey else ret tt
        | None => ret tt
        end
      else ret tt
  | None => ret tt
  end.

(** The field the rename text is typed into has [maxLength={40}]: what
    the user enters is cut to 40 code units. *)
Definition renameInput (typed : jsstring) : jsstring := take 40 typed.

(** The new key is free, or the home page has it already: the first read
    of [saveRename] lets the rename go on. *)
Definition unclaimedOrOwn (db : Db) (key : jsstring) (id : DocId) : Prop :=
  homepagesByName db !! key = None \/ homepagesByName db !! key = Some id.

(** The late read of [saveRename]: the condition
    [oldKeyRef && homePageKey && homePageKey !== newKey]. *)
Definition readsOldClaim (homePageKey : option jsstring) (newKey : jsstring) : bool :=
  match homePageKey with
  | Some oldKey => truthy oldKey && negb (bool_decide (oldKey = newKey))
  | None => false
  end.

Definition saveRename `{Lowercase} (rule : ReadRule) (now : Timestamp)
    (homePageId : option DocId) (renameText : jsstring)
    (homePageKey : option jsstring) (w : World) : Result :=
  match homePageId with
  | Some ((_ :: _) as id) =>
      let n := trim renameText in
      let newKey := toNameKey n in
      if negb (truthy n) || negb (truthy newKey)
      then {| world := w;
              outcome := Alerted "Invalid name" (str "Please enter a valid name.");
              requests := [] |}
      else
        let body := renameTx rule id n newKey homePageKey in
        match runTransaction now (db w) body with
        | (db', inr _) =>
            {| world := {| db := db'; saved := saved w |};
               outcome := Alerted "Saved" (str "HomePage name updated.");
               requests := traceOf (db w) body |}
        | (_, inl e) =>
            {| world := w;
               outcome := Alerted "Rename failed" (str (errorMessage e));
               requests := traceOf (db w) body |}
        end
  | _ => {| world := w; outcome := Ignored; requests := [] |}
  end.

End HomeTab.

(** ** The shopping tab *)

Module ShoppingTab.
Import JS Firestore.
Local Open Scope string_scope.

(** A document of [homepages/{id}/shoppingItems]. *)
Record Item := {
  id : DocId;
  itemName : jsstring;
  nameLower : jsstring;
  purchased : bool;
  itemCreatedAt : option Timestamp
}.

(** The shopping lists of the store, by home page; a list is kept with
    its newest item first. *)
Abbreviation Lists := (gmap (list N) (list Item)) (only parsing).

Definition shoppingItems (ls : Lists) (homePageId : DocId) : list Item :=
  default [] (ls !! homePageId).

(** [query(itemsRef, where(nameLower, ==, normalized), limit(1))] *)
Definition dupQuery (normalized : jsstring) (items : list Item) : list Item :=
  take 1 (filter (fun i => nameLower i = normalized) items).

Definition quote : N := 34%N.

Inductive AddOutcome :=
| Added                              (* addDoc(...), then setText of the empty string *)
| AlreadyOnList (message : jsstring) (* Alert.alert("Already on the list", message) *)
| Skipped.                           (* plain return *)

(** [autoId] is the id [addDoc] draws for the new document. *)
Definition addItem `{Lowercase} (autoId : DocId) (now : Timestamp)
    (homePageId : option DocId) (text : jsstring) (ls : Lists) : Lists * AddOutcome :=
  let n := trim text in
  if negb (truthy n) || negb (truthyOpt homePageId) then (ls, Skipped)
  else
    match homePageId with
    | Some hp =>
        let normalized := toLowerCase n in
        match dupQuery normalized (shoppingItems ls hp) with
        | _ :: _ =>
            (ls, AlreadyOnList (quote :: n ++ quote :: str " is already in this HomePage."))
        | [] =>
            (<[hp := {| id := autoId; itemName := n; nameLower := normalized;
                        purchased := false; itemCreatedAt := Some now |}
                     :: shoppingItems ls hp]> ls,
             Added)
        end
    | None => (ls, Skipped)
    end.

End ShoppingTab.

(** ** Worlds for the examples *)

Module Scenario.
Import JS NameKey Firestore Onboarding HomeTab.
Local Open Scope string_scope.

Definition nowhere : World :=
  {| db := {| homepages := ∅; homepagesByName := ∅ |}; saved := None |}.

Definition groupA : DocId := str "hpA".
Definition groupB : DocId := str "hpB".

(** [groupA] was created as "Magnus Home". *)
Definition magnusHome : World :=
  world (createByName ReadsFirst groupA 1%N (str "Magnus Home") nowhere).

(** Then [groupB] was created as "Summer Hut". *)
Definition twoHomes : World :=
  world (createByName ReadsFirst groupB 2%N (str "Summer Hut") magnusHome).

(** The same store written out, with nothing saved on the device. *)
Definition solo : World :=
  {| db := {| homepages :=
                {[ groupA := {| createdAt := Some 1%N;
                                name := Some (str "Magnus Home");
                                nameKey := Some (str "magnus-home") |} ]};
              homepagesByName := {[ str "magnus-home" := groupA ]} |};
     saved := None |}.

(** A shopping list with milk on it. *)
Definition milk : ShoppingTab.Item :=
  {| ShoppingTab.id := str "i1"; ShoppingTab.itemName := str "Milk";
     ShoppingTab.nameLower := str "milk"; ShoppingTab.purchased := false;
     ShoppingTab.itemCreatedAt := Some 3%N |}.

Definition pantry : gmap (list N) (list ShoppingTab.Item) := {[ groupA := [milk] ]}.

End Scenario.

(** ** The screens around the handlers *)

(** The start of the onboarding screen: its effect on mount. *)
Module Boot.
Import JS Firestore Onboarding.

Inductive Screen :=
| Home        (* router.replace("/(home)/home") *)
| Start.      (* setLoading(false): the create and join forms *)

(** A saved id is checked against the store; a stale one is removed. *)
Definition boot (w : World) : World * Screen :=
  match saved w with
  | Some ((_ :: _) as id) =>
      match homepages (db w) !! id with
      | Some _ => (w, Home)
      | None => ({| db := db w; saved := None |}, Start)
      end
  | _ => (w, Start)
  end.

End Boot.

(** The state of the home tab and the effects and handlers that set it. *)
Module HomeScreen.
Import JS Firestore Onboarding HomeTab.
Local Open Scope string_scope.

Record State := {
  homePageId : option DocId;
  homePageName : option jsstring;
  homePageKey : option jsstring;
  renameText : jsstring
}.

Definition initial : State :=
  {| homePageId := None; homePageName := None; homePageKey := None; renameText := [] |}.

Inductive Shown :=
| Stays
| BackToStart (alert : option (string * jsstring)).   (* router.replace("/") *)

(** The first effect: the saved id, or back to the start. *)
Definition load (w : World) : State * Shown :=
  match saved w with
  | Some ((_ :: _) as id) =>
      ({| homePageId := Some id; homePageName := None; homePageKey := None;
          renameText := [] |}, Stays)
  | _ => (initial, BackToStart None)
  end.

(** The listener of [onSnapshot(hpRef, ...)], run on the document the
    store holds for the home page of the state. *)
Definition onSnapshot (st : State) (w : World) : State * World * Shown :=
  match homePageId st with
  | Some ((_ :: _) as id) =>
      match homepages (db w) !! id with
      | None =>
          (st, {| db := db w; saved := None |},
           BackToStart
             (Some ("HomePage deleted",
                    str "That HomePage no longer exists. Returning to start.")))
      | Some data =>
          ({| homePageId := homePageId st;
              homePageName := name data;
              homePageKey := nameKey data;
              renameText := match name data with
                            | Some ((_ :: _) as n) => n
                            | _ => renameText st
                            end |},
           w, Stays)
      end
  | _ => (st, w, Stays)
  end.

Definition switchHomePage (st : State) (w : World) : State * World * Shown :=
  (initial, {| db := db w; saved := None |}, BackToStart None).

(** What [saveRename] shows when the rename went through. *)
Definition savedAlert : Outcome := Alerted "Saved" (str "HomePage name updated.").

(** [saveRename] as the screen calls it: on its own state. *)
Definition save `{Lowercase} (rule : ReadRule) (now : Timestamp) (st : State) (w : World)
  : Result :=
  saveRename rule now (homePageId st) (renameText st) (homePageKey st) w.

End HomeScreen.

(** What the store guarantees the join and the guard: the design document
    asks that a claim names a home page that exists and carries the key of
    the claim, and the handlers keep the key of a home page the key of its
    name. *)
Module Invariants.
Import JS NameKey Firestore.

Definition claimsConsistent (d : Db) : Prop :=
  forall key id, homepagesByName d !! key = Some id ->
    exists hp, homepages d !! id = Some hp /\ nameKey hp = Some key.

Definition keysFromNames `{Lowercase} (d : Db) : Prop :=
  forall id hp, homepages d !! id = Some hp ->
    exists n, name hp = Some n /\ nameKey hp = Some (toNameKey n)
              /\ toNameKey n <> [] /\ trim n = n.

(** The store after a transaction of [saveRename] that went through:
    the home page merged, the new key claimed, and the claim of [dropOld]
    deleted if there is one to delete. *)
Definition renamed (d : Db) (id : DocId) (n newKey : jsstring) (dropOld : option jsstring) : Db :=
  {| homepages :=
       <[id := {| createdAt := (homepages d !! id) ≫= createdAt;
                  name := Some n; nameKey := Some newKey |}]> (homepages d);
     homepagesByName :=
       match dropOld with
       | Some oldKey => delete oldKey (<[newKey := id]> (homepagesByName d))
       | None => <[newKey := id]> (homepagesByName d)
       end |}.

End Invariants.

(** The other handlers of the shopping tab. *)
Module ShoppingOps.
Import JS Firestore ShoppingTab.

(** [deleteDoc] of the item; deleting a document that is not there is not
    an error. *)
Definition removeItem (homePageId : option DocId) (target : DocId) (ls : Lists) : Lists :=
  match homePageId with
  | Some ((_ :: _) as hp) =>
      <[hp := filter (fun i => id i <> target) (shoppingItems ls hp)]> ls
  | _ => ls
  end.

Definition setPurchased (b : bool) (i : Item) : Item :=
  {| id := id i; itemName := itemName i; nameLower := nameLower i;
     purchased := b; itemCreatedAt := itemCreatedAt i |}.

Definition hasId (target : DocId) (items : list Item) : bool :=
  existsb (fun i => bool_decide (id i = target)) items.

(** What the update does to an item: [purchased] becomes [!current] on
    the document with the id. *)
Definition toggled (target : DocId) (current : bool) (i : Item) : Item :=
  if bool_decide (id i = target) then setPurchased (negb current) i else i.

(** [updateDoc(ref, { purchased: !current })]; [updateDoc] fails on a
    document that does not exist, and the handler alerts. *)
Definition togglePurchased (homePageId : option DocId) (target : DocId) (current : bool)
    (ls : Lists) : Lists * option string :=
  match homePageId with
  | Some ((_ :: _) as hp) =>
      if hasId target (shoppingItems ls hp)
      then (<[hp := map (toggled target current) (shoppingItems ls hp)]> ls, None)
      else (ls, Some "Update failed"%string)
  | _ => (ls, None)
  end.

(** The loop of [clearPurchased]: [batch] holds the deletions asked since
    the last commit, [count] all deletions so far, [committed] the batches
    committed so far, oldest first. *)
Fixpoint clearLoop (docs : list Item) (batch : list DocId) (count : nat)
    (committed : list (list DocId)) : list (list DocId) * list DocId :=
  match docs with
  | [] => (committed, batch)
  | d :: rest =>
      let batch' := batch ++ [id d] in
      let count' := S count in
      if count' mod 450 =? 0
      then clearLoop rest [] count' (committed ++ [batch'])
      else clearLoop rest batch' count' committed
  end.

(** The batches [clearPurchased] commits, the last [batch.commit()]
    included. *)
Definition clearBatches (purchasedDocs : list Item) : list (list DocId) :=
  let '(committed, batch) := clearLoop purchasedDocs [] 0 [] in
  committed ++ [batch].

Definition commitBatch (items : list Item) (batch : list DocId) : list Item :=
  filter (fun i => id i ∉ batch) items.

(** The batches [clearPurchased] commits: none when the query for the
    purchased items comes back empty, or when no home page is selected. *)
Definition clearCommits (homePageId : option DocId) (ls : Lists) : list (list DocId) :=
  match homePageId with
  | Some ((_ :: _) as hp) =>
      let snap := filter (fun i => purchased i = true) (shoppingItems ls hp) in
      match snap with
      | [] => []
      | _ => clearBatches snap
      end
  | _ => []
  end.

Definition clearPurchased (homePageId : option DocId) (ls : Lists) : Lists * option string :=
  match homePageId with
  | Some ((_ :: _) as hp) =>
      let snap := filter (fun i => purchased i = true) (shoppingItems ls hp) in
      match snap with
      | [] => (ls, Some "Nothing to clear"%string)
      | _ => (<[hp := foldl commitBatch (shoppingItems ls hp) (clearBatches snap)]> ls, None)
      end
  | _ => (ls, None)
  end.

(** [Array.prototype.sort] is stable: with a comparator that is a
    consistent ordering the result is the one arrangement in which the
    comparator never puts an earlier element after a later one and ties
    keep their order.  [sortWith] builds it by insertion. *)
Section Sort.
Context {A : Type} (cmp : A -> A -> Z).

Fixpoint insertSorted (x : A) (l : list A) : list A :=
  match l with
  | [] => [x]
  | y :: r => if (cmp x y <=? 0)%Z then x :: l else y :: insertSorted x r
  end.

Definition sortWith (l : list A) : list A := foldr insertSorted [] l.
End Sort.

Inductive SortMode := Newest | Alpha | UnpurchasedFirst.

Definition sortModeName (m : SortMode) : string :=
  match m with
  | Newest => "newest"%string
  | Alpha => "alpha"%string
  | UnpurchasedFirst => "unpurchased-first"%string
  end.

(** What the first effect makes of the stored [sortMode]. *)
Definition loadSort (savedSort : option string) : SortMode :=
  match savedSort with
  | Some s =>
      if decide (s = "newest"%string) then Newest
      else if decide (s = "alpha"%string) then Alpha
      else if decide (s = "unpurchased-first"%string) then UnpurchasedFirst
      else UnpurchasedFirst
  | None => UnpurchasedFirst
  end.

(** The sort button: the next mode, which is also stored. *)
Definition nextSort (m : SortMode) : SortMode * string :=
  let next := match m with
              | Newest => Alpha
              | Alpha => UnpurchasedFirst
              | UnpurchasedFirst => Newest
              end in
  (next, sortModeName next).

(** [(a, b) => a.purchased === b.purchased ? 0 : a.purchased ? 1 : -1] *)
Definition byPurchased (a b : Item) : Z :=
  if bool_decide (purchased a = purchased b) then 0%Z
  else if purchased a then 1%Z else (-1)%Z.

(** The derived list of the screen.  [localeCompare] is the collation of
    the device, which the model leaves open. *)
Definition visibleItems (localeCompare : jsstring -> jsstring -> Z)
    (hidePurchased : bool) (sortMode : SortMode) (items : list Item) : list Item :=
  let base := if hidePurchased then filter (fun i => purchased i = false) items else items in
  match sortMode with
  | Alpha => sortWith (fun a b => localeCompare (nameLower a) (nameLower b)) base
  | UnpurchasedFirst => sortWith byPurchased base
  | Newest => base
  end.

End ShoppingOps.

(** The message board. *)
Module Messages.
Import JS Firestore.

Record Message := {
  id : DocId;
  text : jsstring;
  author : jsstring;
  createdAt : option Timestamp
}.

Abbreviation Boards := (gmap (list N) (list Message)) (only parsing).

Definition messagesOf (bs : Boards) (homePageId : DocId) : list Message :=
  default [] (bs !! homePageId).

(** [clamp] *)
Definition clamp (s : jsstring) (max : nat) : jsstring :=
  if max <? length s then slice0 max s else s.

(** The nickname field and the device's [AsyncStorage] entry [nickname]. *)
Record Nick := {
  nickname : jsstring;
  nickSaved : bool;
  storedNick : option jsstring
}.

Definition saveNickname (st : Nick) : Nick * option string :=
  let trimmed := clamp (trim (nickname st)) 40 in
  if negb (truthy trimmed) then (st, Some "Nickname required"%string)
  else ({| nickname := trimmed; nickSaved := true; storedNick := Some trimmed |}, None).

Definition anonymous : jsstring := str "Anonymous".

Inductive Sent := SentOne | NotSent.

(** [autoId] is the id [addDoc] draws for the new document. *)
Definition sendMessage (autoId : DocId) (now : Timestamp) (homePageId : option DocId)
    (txt nick : jsstring) (bs : Boards) : Boards * Sent :=
  match homePageId with
  | Some ((_ :: _) as hp) =>
      let body := clamp (trim txt) 500 in
      let author := clamp (if truthy (trim nick) then trim nick else anonymous) 40 in
      if negb (truthy body) then (bs, NotSent)
      else (<[hp := {| id := autoId; text := body; author := author;
                       createdAt := Some now |} :: messagesOf bs hp]> bs,
            SentOne)
  | _ => (bs, NotSent)
  end.

Definition deleteMessage (homePageId : option DocId) (target : DocId) (bs : Boards) : Boards :=
  match homePageId with
  | Some ((_ :: _) as hp) =>
      <[hp := filter (fun m => id m <> target) (messagesOf bs hp)]> bs
  | _ => bs
  end.

End Messages.

(** The scope of the service worker, as the root layout computes it. *)
Module Layout.
Import JS.

Definition slash : N := 47%N.

(** [s.split(sep)] for a separator of one code unit. *)
Fixpoint split (sep : N) (s : jsstring) : list jsstring :=
  match s with
  | [] => [[]]
  | c :: r =>
      if (c =? sep)%N then [] :: split sep r
      else match split sep r with
           | seg :: segs => (c :: seg) :: segs
           | [] => [[c]]
           end
  end.

(** [pathname.split("/").filter(Boolean)] *)
Definition segments (pathname : jsstring) : list jsstring :=
  filter (fun seg => truthy seg = true) (split slash pathname).

(** The scope read off the address: the first segment between slashes. *)
Definition scopeOfPath (pathname : jsstring) : jsstring :=
  match segments pathname with
  | seg :: _ => slash :: seg ++ [slash]
  | [] => [slash]
  end.

Definition endsWithSlash (s : jsstring) : bool :=
  match List.last (map Some s) None with
  | Some c => (c =? slash)%N
  | None => false
  end.

(** The scope read off the [base] element: its [href], or a slash, with
    a slash at the end. *)
Definition scopeOfBase (href : option jsstring) : jsstring :=
  let base := match href with Some ((_ :: _) as h) => h | _ => [slash] end in
  if endsWithSlash base then base else base ++ [slash].

Definition swUrl (scope : jsstring) : jsstring := scope ++ str "sw.js".

End Layout.

(** ** More examples *)

Module Examples.
Import JS Firestore Onboarding Scenario.
Local Open Scope string_scope.

(** The home tab on [groupA], with [text] in the rename field. *)
Definition soloScreen (text : jsstring) : HomeScreen.State :=
  {| HomeScreen.homePageId := Some groupA;
     HomeScreen.homePageName := Some (str "Magnus Home");
     HomeScreen.homePageKey := Some (str "magnus-home");
     HomeScreen.renameText := text |}.

(** Eggs, bought already, and a list with milk and eggs. *)
Definition eggs : ShoppingTab.Item :=
  {| ShoppingTab.id := str "i2"; ShoppingTab.itemName := str "Eggs";
     ShoppingTab.nameLower := str "eggs"; ShoppingTab.purchased := true;
     ShoppingTab.itemCreatedAt := Some 4%N |}.

Definition basket : gmap (list N) (list ShoppingTab.Item) := {[ groupA := [eggs; milk] ]}.

(** A nickname field with [typed] in it, nothing saved yet. *)
Definition nickField (typed : jsstring) : Messages.Nick :=
  {| Messages.nickname := typed; Messages.nickSaved := false;
     Messages.storedNick := None |}.

(** The device still holds the id of a home page that is gone. *)
Definition stale : World := {| db := db nowhere; saved := Some groupA |}.

End Examples.

(** * Properties *)

(** ** Scanning code units *)

Module JSFacts.
Import JS.

Section Runs.
Variable p : N -> bool.

Local Abbreviation noRepeat := (JS.noRepeat p).
Local Abbreviation headOutside := (JS.headOutside p).

Lemma noRepeat_cons c s :
  noRepeat (c :: s) = true <-> (p c = false \/ headOutside s = true) /\ noRepeat s = true.
Proof.
  destruct s as [|d r]; simpl.
  - intuition.
  - rewrite andb_true_iff, negb_true_iff, andb_false_iff, negb_true_iff. tauto.
Qed.

Lemma noRepeat_tail c s : noRepeat (c :: s) = true -> noRepeat s = true.
Proof. intros H. apply noRepeat_cons in H. tauto. Qed.

Lemma replaceRunsFrom_shape (rep : N) s :
  forall b,
    noRepeat (replaceRunsFrom p rep b s) = true
    /\ (b = true -> headOutside (replaceRunsFrom p rep b s) = true).
Proof.
  induction s as [|c r IH]; intros b; [now split|].
  simpl. destruct (p c) eqn:Hc.
  - destruct b.
    + apply IH.
    + split; [|discriminate].
      apply noRepeat_cons. destruct (IH true) as [H1 H2]. auto.
  - split.
    + apply noRepeat_cons. destruct (IH false) as [H1 _]. auto.
    + intros _. simpl. now rewrite Hc.
Qed.

Lemma replaceRuns_noRepeat (rep : N) s : noRepeat (replaceRuns p rep s) = true.
Proof. apply replaceRunsFrom_shape. Qed.

Lemma replaceRunsFrom_id (rep : N) s :
  forall b, noRepeat s = true -> (b = true -> headOutside s = true) ->
    (forall c, c ∈ s -> p c = true -> c = rep) ->
    replaceRunsFrom p rep b s = s.
Proof.
  induction s as [|c r IH]; intros b Hn Hb Hrep; [reflexivity|].
  apply noRepeat_cons in Hn. destruct Hn as [Hc Hr].
  simpl. destruct (p c) eqn:Hpc.
  - destruct b.
    + specialize (Hb eq_refl). simpl in Hb. now rewrite Hpc in Hb.
    + rewrite (Hrep c) by (auto; left). f_equal.
      apply IH; auto.
      * intros _. destruct Hc; [congruence|assumption].
      * intros d Hd. apply Hrep. now right.
  - f_equal. apply IH; auto; [discriminate|].
    intros d Hd. apply Hrep. now right.
Qed.

Lemma replaceRuns_none (rep : N) s :
  forallb (fun c => negb (p c)) s = true -> replaceRuns p rep s = s.
Proof.
  unfold replaceRuns. generalize false.
  induction s as [|c r IH]; intros b H; [reflexivity|].
  simpl in *. apply andb_true_iff in H. destruct H as [Hc Hr].
  apply negb_true_iff in Hc. rewrite Hc. f_equal. now apply IH.
Qed.

Lemma squeeze_spec (rep : N) s :
  NameKey.Reference.squeeze p rep s = replaceRunsFrom p rep false s
  /\ NameKey.Reference.squeeze p rep s =
     match s with
     | c :: _ => if p c then rep :: replaceRunsFrom p rep true s
                 else replaceRunsFrom p rep true s
     | [] => []
     end.
Proof.
  induction s as [|c r [IH1 IH2]]; [now split|].
  assert (Hsq : p c = true ->
                NameKey.Reference.squeeze p rep (c :: r) = rep :: replaceRunsFrom p rep true r).
  { intros Hc. simpl. rewrite Hc. destruct r as [|d r']; [reflexivity|].
    rewrite IH2. destruct (p d); reflexivity. }
  destruct (p c) eqn:Hc.
  - rewrite Hsq by reflexivity. simpl. rewrite Hc. now split.
  - simpl. rewrite Hc, IH1. now split.
Qed.

Lemma squeeze_replaceRuns (rep : N) s :
  NameKey.Reference.squeeze p rep s = replaceRuns p rep s.
Proof. apply squeeze_spec. Qed.

Lemma dropWhile_headOutside s : headOutside s = true -> dropWhile p s = s.
Proof.
  destruct s as [|c r]; [reflexivity|]. simpl.
  intros H. apply negb_true_iff in H. now rewrite H.
Qed.

Lemma dropWhileEnd_nil s : dropWhileEnd p s = [] -> forallb p s = true.
Proof.
  induction s as [|c r IH]; [reflexivity|]. simpl.
  destruct (dropWhileEnd p r) eqn:Hr; [|discriminate].
  destruct (p c); [auto|discriminate].
Qed.

Lemma dropWhileEnd_none s :
  forallb (fun c => negb (p c)) s = true -> dropWhileEnd p s = s.
Proof.
  induction s as [|c r IH]; [reflexivity|]. simpl.
  intros H. apply andb_true_iff in H. destruct H as [Hc Hr].
  rewrite (IH Hr). apply negb_true_iff in Hc. rewrite Hc.
  now destruct r.
Qed.

Lemma dropWhile_none s :
  forallb (fun c => negb (p c)) s = true -> dropWhile p s = s.
Proof.
  intros H. apply dropWhile_headOutside.
  destruct s as [|c r]; [reflexivity|]. simpl in *.
  now apply andb_true_iff in H.
Qed.

Lemma dropWhileEnd_idem s : dropWhileEnd p (dropWhileEnd p s) = dropWhileEnd p s.
Proof.
  induction s as [|c r IH]; [reflexivity|]. simpl.
  destruct (dropWhileEnd p r) as [|d t] eqn:Hr.
  - destruct (p c) eqn:Hc; [reflexivity|]. simpl. now rewrite Hc.
  - simpl in *. now rewrite IH.
Qed.

Lemma dropWhile_idem s : dropWhile p (dropWhile p s) = dropWhile p s.
Proof.
  induction s as [|c r IH]; [reflexivity|]. simpl.
  destruct (p c) eqn:Hc; [assumption|]. simpl. now rewrite Hc.
Qed.

Lemma dropWhileEnd_headOutside s :
  headOutside s = true -> headOutside (dropWhileEnd p s) = true.
Proof.
  destruct s as [|c r]; [reflexivity|]. simpl. intros Hc.
  destruct (dropWhileEnd p r); simpl; [|assumption].
  apply negb_true_iff in Hc. rewrite Hc. simpl. now rewrite Hc.
Qed.

Lemma dropWhile_is_headOutside s : headOutside (dropWhile p s) = true.
Proof.
  induction s as [|c r IH]; [reflexivity|]. simpl.
  destruct (p c) eqn:Hc; [assumption|]. simpl. now rewrite Hc.
Qed.
End Runs.

(** A property of every code unit survives each scanning step. *)
Section Preserved.
Variable q : N -> bool.

Lemma forallb_dropWhile p s : forallb q s = true -> forallb q (dropWhile p s) = true.
Proof.
  induction s as [|c r IH]; [auto|]. intros H. simpl.
  destruct (p c); [|assumption].
  simpl in H. apply andb_true_iff in H. now apply IH.
Qed.

Lemma forallb_dropWhileEnd p s : forallb q s = true -> forallb q (dropWhileEnd p s) = true.
Proof.
  induction s as [|c r IH]; [auto|]. simpl. intros H.
  apply andb_true_iff in H. destruct H as [Hc Hr]. specialize (IH Hr).
  destruct (dropWhileEnd p r) as [|d t].
  - destruct (p c); simpl; [reflexivity|now rewrite Hc].
  - change (forallb q (c :: d :: t) = true). simpl. simpl in IH. now rewrite Hc.
Qed.

Lemma forallb_replaceRunsFrom p rep s :
  q rep = true -> forallb q s = true ->
  forall b, forallb q (replaceRunsFrom p rep b s) = true.
Proof.
  intros Hrep. induction s as [|c r IH]; [auto|]. simpl. intros H b.
  apply andb_true_iff in H. destruct H as [Hc Hr].
  specialize (IH Hr).
  destruct (p c); [destruct b|]; simpl; rewrite ?Hrep, ?Hc; simpl; auto.
Qed.

Lemma forallb_dropFirstHyphen s : forallb q s = true -> forallb q (dropFirstHyphen s) = true.
Proof.
  destruct s as [|c r]; [auto|]. simpl. intros H.
  destruct (isHyphen c); [|assumption]. now apply andb_true_iff in H.
Qed.

Lemma forallb_dropLastHyphen s : forallb q s = true -> forallb q (dropLastHyphen s) = true.
Proof.
  induction s as [|c r IH]; [auto|]. intros H.
  simpl in H. apply andb_true_iff in H. destruct H as [Hc Hr].
  destruct r as [|d t].
  - simpl. destruct (isHyphen c); simpl; [reflexivity|now rewrite Hc].
  - change (forallb q (c :: dropLastHyphen (d :: t)) = true).
    simpl forallb at 1. rewrite Hc. now apply IH.
Qed.

Lemma forallb_take n (s : jsstring) : forallb q s = true -> forallb q (take n s) = true.
Proof.
  revert n. induction s as [|c r IH]; intros [|n] H; simpl; auto.
  simpl in H. apply andb_true_iff in H. destruct H as [Hc Hr].
  rewrite Hc. now apply IH.
Qed.

Lemma forallb_stripNonKey s : forallb isKeyChar (stripNonKey s) = true.
Proof.
  unfold stripNonKey. induction s as [|c r IH]; [reflexivity|].
  rewrite filter_cons. case_decide; simpl; [|assumption].
  rewrite H. assumption.
Qed.
End Preserved.

Lemma trim_idem s : trim (trim s) = trim s.
Proof.
  unfold trim.
  rewrite (dropWhile_headOutside isSpace (dropWhileEnd isSpace (dropWhile isSpace s))).
  - apply dropWhileEnd_idem.
  - apply dropWhileEnd_headOutside, dropWhile_is_headOutside.
Qed.

Lemma forallb_trim q s : forallb q s = true -> forallb q (trim s) = true.
Proof. intros H. unfold trim. now apply forallb_dropWhileEnd, forallb_dropWhile. Qed.

Lemma length_trim s : length (trim s) <= length s.
Proof.
  unfold trim.
  assert (He : forall t, length (dropWhileEnd isSpace t) <= length t).
  { induction t as [|c r IH]; simpl; [lia|].
    destruct (dropWhileEnd isSpace r); [destruct (isSpace c)|]; simpl in *; lia. }
  assert (Hs : forall t, length (dropWhile isSpace t) <= length t).
  { induction t as [|c r IH]; simpl; [lia|]. destruct (isSpace c); simpl; lia. }
  specialize (He (dropWhile isSpace s)). specialize (Hs s). lia.
Qed.

End JSFacts.

(** ** The name normalizer *)

Module NameKeyFacts.
Import JS NameKey JSFacts.

Lemma isHyphen_eq c : isHyphen c = true -> c = hyphen.
Proof. apply N.eqb_eq. Qed.

Lemma isKeyChar_hyphen : isKeyChar hyphen = true.
Proof. reflexivity. Qed.

Ltac unbool :=
  repeat match goal with
    | H : _ && _ = true |- _ => apply andb_true_iff in H; destruct H
    | H : _ || _ = true |- _ => apply orb_true_iff in H; destruct H
    | H : (_ <=? _)%N = true |- _ => apply N.leb_le in H
    | H : (_ <? _)%N = true |- _ => apply N.ltb_lt in H
    | H : (_ =? _)%N = true |- _ => apply N.eqb_eq in H
    end.

Lemma isKeyChar_not_space c : isKeyChar c = true -> isSpace c = false.
Proof.
  intros Hk. apply not_true_is_false. intros Hs.
  unfold isKeyChar, isSpace, hyphen in *. unbool; lia.
Qed.

Lemma isKeyChar_ascii c : isKeyChar c = true -> isAscii c = true.
Proof.
  intros Hk. unfold isKeyChar, isAscii, hyphen in *.
  apply N.ltb_lt. unbool; lia.
Qed.

Lemma isKeyChar_lower c : isKeyChar c = true -> asciiLower c = c.
Proof.
  intros Hk. unfold asciiLower.
  destruct ((65 <=? c)%N && (c <=? 90)%N) eqn:Hu; [|reflexivity].
  unfold isKeyChar, hyphen in *. unbool; lia.
Qed.

Lemma forallb_impl (q q' : N -> bool) (s : jsstring) :
  (forall c, q c = true -> q' c = true) -> forallb q s = true -> forallb q' s = true.
Proof.
  intros Hq. induction s as [|c r IH]; [auto|]. simpl. intros H.
  apply andb_true_iff in H. destruct H as [Hc Hr].
  rewrite (Hq c Hc). now apply IH.
Qed.

Lemma stripNonKey_id s : forallb isKeyChar s = true -> stripNonKey s = s.
Proof.
  unfold stripNonKey. induction s as [|c r IH]; [reflexivity|]. simpl. intros H.
  apply andb_true_iff in H. destruct H as [Hc Hr].
  rewrite filter_cons. case_decide; [|contradiction]. f_equal. now apply IH.
Qed.

Lemma map_asciiLower_id s : forallb isKeyChar s = true -> map asciiLower s = s.
Proof.
  induction s as [|c r IH]; [reflexivity|]. simpl. intros H.
  apply andb_true_iff in H. destruct H as [Hc Hr].
  rewrite (isKeyChar_lower c Hc). f_equal. now apply IH.
Qed.

(** *** One hyphen at an edge is all there is after the collapse *)

Lemma dropWhile_dropFirstHyphen s :
  noRepeat isHyphen s = true -> dropWhile isHyphen s = dropFirstHyphen s.
Proof.
  destruct s as [|c r]; [reflexivity|]. intros Hn. simpl.
  destruct (isHyphen c) eqn:Hc; [|reflexivity].
  apply noRepeat_cons in Hn. destruct Hn as [[Hc'|Hh] _]; [congruence|].
  now apply dropWhile_headOutside.
Qed.

Lemma dropWhileEnd_dropLastHyphen s :
  noRepeat isHyphen s = true -> dropWhileEnd isHyphen s = dropLastHyphen s.
Proof.
  induction s as [|c r IH]; [reflexivity|]. intros Hn.
  destruct r as [|d t]; [reflexivity|].
  pose proof (noRepeat_tail _ _ _ Hn) as Hr. specialize (IH Hr).
  change (dropLastHyphen (c :: d :: t)) with (c :: dropLastHyphen (d :: t)).
  change (dropWhileEnd isHyphen (c :: d :: t))
    with (match dropWhileEnd isHyphen (d :: t) with
          | [] => if isHyphen c then [] else [c]
          | r' => c :: r'
          end).
  rewrite <- IH.
  destruct (dropWhileEnd isHyphen (d :: t)) as [|e u] eqn:He; [|reflexivity].
  apply dropWhileEnd_nil in He. simpl in He.
  apply andb_true_iff in He. destruct He as [Hd _].
  apply noRepeat_cons in Hn. destruct Hn as [[Hc|Hh] _].
  - now rewrite Hc.
  - simpl in Hh. rewrite Hd in Hh. discriminate.
Qed.

Lemma noRepeat_dropFirstHyphen s :
  noRepeat isHyphen s = true -> noRepeat isHyphen (dropFirstHyphen s) = true.
Proof.
  destruct s as [|c r]; [auto|]. intros Hn. simpl.
  destruct (isHyphen c); [|assumption]. now apply noRepeat_tail in Hn.
Qed.

Lemma headOutside_dropFirstHyphen s :
  noRepeat isHyphen s = true -> headOutside isHyphen (dropFirstHyphen s) = true.
Proof.
  destruct s as [|c r]; [auto|]. intros Hn. simpl.
  destruct (isHyphen c) eqn:Hc.
  - apply noRepeat_cons in Hn. destruct Hn as [[Hc'|Hh] _]; [congruence|assumption].
  - simpl. now rewrite Hc.
Qed.

Lemma noRepeat_dropLastHyphen s :
  noRepeat isHyphen s = true -> noRepeat isHyphen (dropLastHyphen s) = true.
Proof.
  induction s as [|c r IH]; [auto|]. intros Hn.
  destruct r as [|d t].
  - simpl. now destruct (isHyphen c).
  - change (dropLastHyphen (c :: d :: t)) with (c :: dropLastHyphen (d :: t)).
    apply noRepeat_cons in Hn. destruct Hn as [Hc Hr].
    apply noRepeat_cons. split; [|now apply IH].
    destruct Hc as [Hc|Hh]; [now left|]. right.
    destruct t as [|e u]; simpl in *.
    + apply negb_true_iff in Hh. rewrite Hh. simpl. now rewrite Hh.
    + assumption.
Qed.

Lemma headOutside_dropLastHyphen s :
  headOutside isHyphen s = true -> headOutside isHyphen (dropLastHyphen s) = true.
Proof.
  destruct s as [|c [|d t]]; simpl; auto.
  intros Hc. apply negb_true_iff in Hc. rewrite Hc. simpl. now rewrite Hc.
Qed.

Lemma noRepeat_take n s :
  noRepeat isHyphen s = true -> noRepeat isHyphen (take n s) = true.
Proof.
  revert n. induction s as [|c r IH]; intros [|n] Hn; auto.
  simpl. apply noRepeat_cons in Hn. destruct Hn as [Hc Hr].
  apply noRepeat_cons. split; [|now apply IH].
  destruct Hc as [Hc|Hh]; [now left|]. right.
  destruct r as [|d t]; destruct n; auto.
Qed.

Lemma headOutside_take n s :
  headOutside isHyphen s = true -> headOutside isHyphen (take n s) = true.
Proof. destruct s, n; auto. Qed.

(** Where the last code unit is not a hyphen there is nothing to drop. *)
Lemma dropLastHyphen_id s :
  isHyphen (List.last s hyphen) = false -> dropLastHyphen s = s.
Proof.
  induction s as [|c r IH]; [reflexivity|].
  destruct r as [|d t].
  - simpl. intros H. now rewrite H.
  - intros H. change (dropLastHyphen (c :: d :: t)) with (c :: dropLastHyphen (d :: t)).
    f_equal. apply IH. exact H.
Qed.

Lemma dropLastHyphen_last s :
  noRepeat isHyphen s = true ->
  dropLastHyphen s = [] \/ isHyphen (List.last (dropLastHyphen s) hyphen) = false.
Proof.
  induction s as [|c r IH]; [now left|]. intros Hn.
  destruct r as [|d t].
  - simpl. destruct (isHyphen c) eqn:Hc; [now left|right]. simpl. exact Hc.
  - right. change (dropLastHyphen (c :: d :: t)) with (c :: dropLastHyphen (d :: t)).
    pose proof (noRepeat_tail _ _ _ Hn) as Hr.
    destruct (IH Hr) as [He|Hl].
    + rewrite He. simpl.
      (* d :: t has shrunk to nothing: it is one hyphen, so c is none *)
      destruct t as [|e u]; [|discriminate He].
      simpl in He. destruct (isHyphen d) eqn:Hd; [|discriminate].
      apply noRepeat_cons in Hn. destruct Hn as [[Hc|Hh] _]; [exact Hc|].
      simpl in Hh. rewrite Hd in Hh. discriminate.
    + destruct (dropLastHyphen (d :: t)) as [|e u] eqn:He.
      * simpl in Hl. discriminate.
      * exact Hl.
Qed.

(** *** What every key looks like *)

Section Keys.
Context `{L : Lowercase}.

Lemma toNameKey_untruncated s : toNameKey s = take 40 (untruncated s).
Proof. reflexivity. Qed.

Lemma untruncated_keyChars s : forallb isKeyChar (untruncated s) = true.
Proof.
  unfold untruncated, stripEdgeHyphens.
  apply forallb_dropLastHyphen, forallb_dropFirstHyphen.
  apply forallb_replaceRunsFrom; [reflexivity|apply forallb_stripNonKey].
Qed.

Lemma untruncated_noRepeat s : noRepeat isHyphen (untruncated s) = true.
Proof.
  unfold untruncated, stripEdgeHyphens.
  apply noRepeat_dropLastHyphen, noRepeat_dropFirstHyphen, replaceRuns_noRepeat.
Qed.

Lemma untruncated_head s : headOutside isHyphen (untruncated s) = true.
Proof.
  unfold untruncated, stripEdgeHyphens.
  apply headOutside_dropLastHyphen, headOutside_dropFirstHyphen, replaceRuns_noRepeat.
Qed.

Lemma untruncated_last s :
  untruncated s = [] \/ isHyphen (List.last (untruncated s) hyphen) = false.
Proof.
  unfold untruncated, stripEdgeHyphens.
  apply dropLastHyphen_last, noRepeat_dropFirstHyphen, replaceRuns_noRepeat.
Qed.

(** A key has at most 40 code units. *)
Lemma toNameKey_length s : length (toNameKey s) <= 40.
Proof. rewrite toNameKey_untruncated, length_take. lia. Qed.

(** A key is made of lowercase letters, digits and hyphens. *)
Lemma toNameKey_keyChars s : forallb isKeyChar (toNameKey s) = true.
Proof. rewrite toNameKey_untruncated. apply forallb_take, untruncated_keyChars. Qed.

(** A key has no two hyphens in a row. *)
Lemma toNameKey_noRepeat s : noRepeat isHyphen (toNameKey s) = true.
Proof. rewrite toNameKey_untruncated. apply noRepeat_take, untruncated_noRepeat. Qed.

(** A key does not start with a hyphen. *)
Lemma toNameKey_head s : headOutside isHyphen (toNameKey s) = true.
Proof. rewrite toNameKey_untruncated. apply headOutside_take, untruncated_head. Qed.

(** A key that was not cut ends as the pattern wants it to. *)
Lemma toNameKey_last_uncut s :
  length (untruncated s) <= 40 ->
  toNameKey s = [] \/ isHyphen (List.last (toNameKey s) hyphen) = false.
Proof.
  intros Hlen. rewrite toNameKey_untruncated, take_ge by exact Hlen.
  apply untruncated_last.
Qed.

(** A key is empty, or matches the pattern, or is a cut key of 40 code
    units that ends in a hyphen. *)
Lemma toNameKey_shape s :
  toNameKey s = []
  \/ matchesKeyPattern (toNameKey s) = true
  \/ (length (toNameKey s) = 40 /\ isHyphen (List.last (toNameKey s) hyphen) = true).
Proof.
  destruct (toNameKey s) as [|c r] eqn:Hk; [now left|right].
  rewrite <- Hk.
  destruct (isHyphen (List.last (toNameKey s) hyphen)) eqn:Hl.
  - right. split; [|reflexivity].
    destruct (le_gt_dec (length (untruncated s)) 40) as [Hle|Hgt].
    + destruct (toNameKey_last_uncut s Hle) as [He|Hn]; congruence.
    + rewrite toNameKey_untruncated, length_take. lia.
  - left. unfold matchesKeyPattern.
    pose proof (toNameKey_length s) as Hlen.
    pose proof (toNameKey_head s) as Hh.
    rewrite !andb_true_iff. repeat split.
    + apply Nat.leb_le. rewrite Hk. simpl. lia.
    + now apply Nat.leb_le.
    + apply toNameKey_keyChars.
    + rewrite Hk in *. exact Hh.
    + now rewrite Hl.
Qed.

(** A string that matches the pattern and has no two hyphens in a row is
    its own key. *)
Lemma toNameKey_fixed k :
  matchesKeyPattern k = true -> noRepeat isHyphen k = true -> toNameKey k = k.
Proof.
  unfold matchesKeyPattern. intros Hm Hn.
  repeat (apply andb_true_iff in Hm; destruct Hm as [Hm ?]).
  apply negb_true_iff in H. apply Nat.leb_le in H2.
  assert (Hsp : forallb (fun c => negb (isSpace c)) k = true).
  { apply (forallb_impl isKeyChar); [|assumption].
    intros c Hc. now rewrite isKeyChar_not_space. }
  assert (Htrim : trim k = k).
  { unfold trim. now rewrite dropWhile_none, dropWhileEnd_none. }
  unfold toNameKey. rewrite Htrim.
  rewrite toLowerCase_ascii by (apply (forallb_impl isKeyChar); auto using isKeyChar_ascii).
  rewrite map_asciiLower_id by assumption.
  rewrite (replaceRuns_none isSpace) by assumption.
  rewrite stripNonKey_id by assumption.
  unfold replaceRuns. rewrite replaceRunsFrom_id; auto using isHyphen_eq; [|discriminate].
  unfold stripEdgeHyphens, slice0.
  assert (Hd : dropFirstHyphen k = k).
  { destruct k as [|c r]; [reflexivity|]. simpl in *.
    apply negb_true_iff in H0. now rewrite H0. }
  rewrite Hd, dropLastHyphen_id by assumption.
  now apply take_ge.
Qed.

(** Normalizing a key again gives it back, unless the key ends in a
    hyphen. *)
Lemma toNameKey_idempotent_unless_cut s :
  isHyphen (List.last (toNameKey s) hyphen) = false ->
  toNameKey (toNameKey s) = toNameKey s.
Proof.
  intros Hl.
  destruct (toNameKey_shape s) as [He|[Hm|[_ Hh]]].
  - rewrite He in Hl. discriminate.
  - apply toNameKey_fixed; [assumption|apply toNameKey_noRepeat].
  - congruence.
Qed.

(** Trimming first, as the handlers do, does not change the key. *)
Lemma toNameKey_trim s : toNameKey (trim s) = toNameKey s.
Proof. unfold toNameKey. now rewrite trim_idem. Qed.

(** On a string of ASCII code units the key does not depend on the rest
    of the case mapping. *)
Lemma toNameKey_basicLatin s :
  forallb isAscii s = true -> toNameKey s = @toNameKey basicLatin s.
Proof.
  intros Ha. unfold toNameKey.
  rewrite (toLowerCase_ascii (trim s)) by now apply forallb_trim.
  reflexivity.
Qed.

End Keys.

(** *** The claims on the normalizer *)

Local Open Scope string_scope.

(** C7: the normalizer of the source is the reference definition of the
    design document (trim whitespace, lowercase, collapse each run of
    whitespace to one hyphen, strip what is outside [[a-z0-9-]], collapse
    repeated hyphens, trim the hyphens at both ends, truncate to 40); it
    sends "  Magnus Home!! " to "magnus-home" and "---" to the empty
    string. *)
Theorem toNameKey_is_reference `{Lowercase} :
  (forall s, toNameKey s = Reference.normalize s)
  /\ toNameKey (str "  Magnus Home!! ") = str "magnus-home"
  /\ toNameKey (str "---") = [].
Proof.
  split; [|split].
  - intros s. unfold toNameKey, Reference.normalize.
    unfold Reference.truncate, Reference.trimHyphens, Reference.collapseHyphens,
      Reference.stripOutside, Reference.collapseWhitespace, Reference.trimWhitespace.
    rewrite !squeeze_replaceRuns.
    fold (trim s). fold (stripNonKey (replaceRuns isSpace hyphen (toLowerCase (trim s)))).
    set (t := replaceRuns isHyphen hyphen _).
    assert (Ht : noRepeat isHyphen t = true) by apply replaceRuns_noRepeat.
    rewrite (dropWhile_dropFirstHyphen t Ht).
    rewrite dropWhileEnd_dropLastHyphen by now apply noRepeat_dropFirstHyphen.
    reflexivity.
  - rewrite toNameKey_basicLatin by reflexivity. vm_compute. reflexivity.
  - rewrite toNameKey_basicLatin by reflexivity. vm_compute. reflexivity.
Qed.

(** C5, at a name whose key is cut after a hyphen: the key of the key is
    one code unit shorter than the key, so normalizing twice is not
    normalizing once. *)
Theorem toNameKey_twice_after_cut `{Lowercase} :
  let s := str "Magnus and Ingrid Summer Hut in Lofoten Norway" in
  toNameKey s = str "magnus-and-ingrid-summer-hut-in-lofoten-"
  /\ toNameKey (toNameKey s) = str "magnus-and-ingrid-summer-hut-in-lofoten"
  /\ toNameKey (toNameKey s) <> toNameKey s.
Proof.
  intros s.
  assert (H1 : toNameKey s = str "magnus-and-ingrid-summer-hut-in-lofoten-").
  { unfold s. rewrite toNameKey_basicLatin by reflexivity. vm_compute. reflexivity. }
  assert (H2 : toNameKey (toNameKey s) = str "magnus-and-ingrid-summer-hut-in-lofoten").
  { rewrite H1. rewrite toNameKey_basicLatin by reflexivity. vm_compute. reflexivity. }
  split; [exact H1|split; [exact H2|]].
  rewrite H2, H1. vm_compute. discriminate.
Qed.

(** C6, at a name whose key is cut after a hyphen: the key has 40 code
    units, ends in a hyphen and does not match the pattern. *)
Theorem toNameKey_cut_after_hyphen `{Lowercase} :
  let k := toNameKey (str "The Hansen Family Cabin by the Red Lake in Telemark") in
  k = str "the-hansen-family-cabin-by-the-red-lake-"
  /\ k <> []
  /\ matchesKeyPattern k = false.
Proof.
  intros k.
  assert (Hk : k = str "the-hansen-family-cabin-by-the-red-lake-").
  { unfold k. rewrite toNameKey_basicLatin by reflexivity. vm_compute. reflexivity. }
  rewrite Hk. split; [reflexivity|split]; [vm_compute; discriminate|vm_compute; reflexivity].
Qed.

End NameKeyFacts.

(** ** Transactions *)

Module TxFacts.
Import JS NameKey Firestore Onboarding HomeTab JSFacts NameKeyFacts.

Lemma toNameKey_nil `{Lowercase} : toNameKey [] = [].
Proof. unfold toNameKey. rewrite toLowerCase_ascii by reflexivity. reflexivity. Qed.

(** The guard [!name || !key] of the handlers only ever fires on the key. *)
Lemma invalid_guard `{Lowercase} n :
  negb (truthy n) || negb (truthy (toNameKey n)) = negb (truthy (toNameKey n)).
Proof.
  destruct n as [|c r]; [|reflexivity].
  now rewrite toNameKey_nil.
Qed.

Lemma truthy_false s : truthy s = false <-> s = [].
Proof. destruct s; simpl; split; congruence. Qed.

Lemma truthy_true s : truthy s = true <-> s <> [].
Proof. destruct s; simpl; split; congruence. Qed.

(** What the transaction of [createByName] does, under either rule. *)
Lemma createTx_run rule autoId n key db :
  createTx rule autoId n key (begin db) =
  match homepagesByName db !! key with
  | Some _ =>
      ({| snapshot := db; writes := []; log := [Get (ByNameRef key)] |},
       inl (Thrown nameTaken))
  | None =>
      ({| snapshot := db;
          writes := [SetHomePage autoId n key; MergeByName key autoId];
          log := [Get (ByNameRef key); Put (HomePageRef autoId); Put (ByNameRef key)] |},
       inr autoId)
  end.
Proof.
  unfold createTx, bind, txGet, begin, logged. destruct rule; simpl;
    destruct (homepagesByName db !! key); reflexivity.
Qed.

(** The transaction of [saveRename] when the new key belongs to another
    home page: it throws after its first read. *)
Lemma renameTx_run_taken rule id n newKey homePageKey db g :
  homepagesByName db !! newKey = Some g -> g <> id ->
  renameTx rule id n newKey homePageKey (begin db) =
  ({| snapshot := db; writes := []; log := [Get (ByNameRef newKey)] |},
   inl (Thrown nameTaken)).
Proof.
  intros Hg Hne. unfold renameTx, bind, txGet, begin, logged.
  destruct rule; simpl; rewrite Hg; case_decide; try contradiction; reflexivity.
Qed.

(** The transaction of [saveRename] when it does not look at the old
    claim. *)
Lemma renameTx_run_plain rule id n newKey homePageKey db :
  unclaimedOrOwn db newKey id -> readsOldClaim homePageKey newKey = false ->
  renameTx rule id n newKey homePageKey (begin db) =
  ({| snapshot := db;
      writes := [MergeHomePage id n newKey; MergeByName newKey id];
      log := [Get (ByNameRef newKey); Put (HomePageRef id); Put (ByNameRef newKey)] |},
   inr tt).
Proof.
  intros Hown Hg. unfold renameTx.
  destruct homePageKey as [oldKey|]; simpl in Hg; rewrite ?Hg;
    unfold bind, txGet, begin, logged;
    destruct Hown as [Hn|Ho]; destruct rule; simpl; rewrite ?Hn, ?Ho; simpl;
    try (destruct (decide (id = id)) as [_|Hc]; [|contradiction]); reflexivity.
Qed.

(** The transaction of [saveRename] when it looks at the old claim, on a
    store that wants its reads first: the read is refused. *)
Lemma renameTx_run_late_refused id n newKey oldKey db :
  unclaimedOrOwn db newKey id -> readsOldClaim (Some oldKey) newKey = true ->
  renameTx ReadsFirst id n newKey (Some oldKey) (begin db) =
  ({| snapshot := db;
      writes := [MergeHomePage id n newKey; MergeByName newKey id];
      log := [Get (ByNameRef newKey); Put (HomePageRef id); Put (ByNameRef newKey);
              Get (ByNameRef oldKey)] |},
   inl ReadAfterWrite).
Proof.
  intros Hown Hg. simpl in Hg. unfold renameTx. rewrite Hg.
  unfold bind, txGet, begin, logged.
  destruct Hown as [Hn|Ho]; simpl; rewrite ?Hn, ?Ho; simpl;
    try (destruct (decide (id = id)) as [_|Hc]; [|contradiction]); simpl; reflexivity.
Qed.

(** The same on a store that runs the body as written: the old claim is
    deleted if it still points to the home page. *)
Lemma renameTx_run_late_served id n newKey oldKey db :
  unclaimedOrOwn db newKey id -> readsOldClaim (Some oldKey) newKey = true ->
  renameTx AsWritten id n newKey (Some oldKey) (begin db) =
  if decide (homepagesByName db !! oldKey = Some id)
  then
    ({| snapshot := db;
        writes := [MergeHomePage id n newKey; MergeByName newKey id; DeleteByName oldKey];
        log := [Get (ByNameRef newKey); Put (HomePageRef id); Put (ByNameRef newKey);
                Get (ByNameRef oldKey); Del (ByNameRef oldKey)] |},
     inr tt)
  else
    ({| snapshot := db;
        writes := [MergeHomePage id n newKey; MergeByName newKey id];
        log := [Get (ByNameRef newKey); Put (HomePageRef id); Put (ByNameRef newKey);
                Get (ByNameRef oldKey)] |},
     inr tt).
Proof.
  intros Hown Hg. simpl in Hg. unfold renameTx. rewrite Hg.
  unfold bind, txGet, begin, logged.
  destruct Hown as [Hn|Ho]; simpl; rewrite ?Hn, ?Ho; simpl;
    try (destruct (decide (id = id)) as [_|Hc]; [|contradiction]); simpl; simpl;
    destruct (homepagesByName db !! oldKey) as [m|] eqn:Hm; simpl;
    repeat case_decide; simplify_eq; try reflexivity; try congruence.
Qed.

End TxFacts.

(** ** The onboarding screen *)

Module OnboardingFacts.
Import JS NameKey Firestore Onboarding Scenario JSFacts NameKeyFacts TxFacts.

(** [createByName] on a key that is taken: nothing is written. *)
Lemma createByName_taken `{Lowercase} rule autoId now createName w :
  toNameKey createName <> [] ->
  is_Some (homepagesByName (db w) !! toNameKey createName) ->
  let r := createByName rule autoId now createName w in
  failureOf (outcome r) = Some NameTaken /\ world r = w
  /\ requests r = [Get (ByNameRef (toNameKey createName))].
Proof.
  intros Hk [g Hg]. unfold createByName.
  rewrite invalid_guard, toNameKey_trim.
  apply truthy_true in Hk. rewrite Hk. simpl.
  unfold runTransaction, traceOf. rewrite createTx_run, Hg. simpl.
  repeat split.
Qed.

(** C1: [createByName] fails with InvalidName on an empty key; on a key
    that is claimed it fails with NameTaken and writes nothing; on a free
    key it runs one transaction that reads the claim and then writes the
    home page (name, key, creation time) under a new id and the claim of
    the key for that id, and it returns the id; a second call with a name
    of the same key then fails with NameTaken. *)
Theorem createByName_spec `{Lowercase} rule autoId now createName w :
  let key := toNameKey createName in
  let r := createByName rule autoId now createName w in
  (key = [] ->
     failureOf (outcome r) = Some InvalidName /\ world r = w /\ requests r = [])
  /\ (key <> [] -> is_Some (homepagesByName (db w) !! key) ->
       failureOf (outcome r) = Some NameTaken /\ world r = w)
  /\ (key <> [] -> homepagesByName (db w) !! key = None ->
       outcome r = Entered autoId
       /\ saved (world r) = Some autoId
       /\ homepages (db (world r)) =
            <[autoId := {| createdAt := Some now;
                           name := Some (trim createName);
                           nameKey := Some key |}]> (homepages (db w))
       /\ homepagesByName (db (world r)) = <[key := autoId]> (homepagesByName (db w))
       /\ requests r =
            [Get (ByNameRef key); Put (HomePageRef autoId); Put (ByNameRef key)]
       /\ forall rule' autoId' now' createName',
            toNameKey createName' = key ->
            let r' := createByName rule' autoId' now' createName' (world r) in
            failureOf (outcome r') = Some NameTaken /\ world r' = world r).
Proof.
  intros key r. split; [|split].
  - intros Hk. unfold r, createByName.
    rewrite invalid_guard, toNameKey_trim. fold key. rewrite Hk. simpl. auto.
  - intros Hk Hg.
    destruct (createByName_taken rule autoId now createName w Hk Hg) as (H1 & H2 & _).
    auto.
  - intros Hk Hfree.
    assert (Hr : r = {| world := {| db := commit now (db w)
                                      [SetHomePage autoId (trim createName) key;
                                       MergeByName key autoId];
                                    saved := Some autoId |};
                        outcome := Entered autoId;
                        requests := [Get (ByNameRef key); Put (HomePageRef autoId);
                                     Put (ByNameRef key)] |}).
    { unfold r, createByName.
      rewrite invalid_guard, toNameKey_trim. fold key.
      apply truthy_true in Hk. rewrite Hk. simpl.
      unfold runTransaction, traceOf. rewrite createTx_run, Hfree. reflexivity. }
    rewrite Hr. simpl. do 5 (split; [reflexivity|]).
    intros rule' autoId' now' createName' Hsame.
    match goal with |- context [createByName _ _ _ _ ?W] => set (w1 := W) end.
    destruct (createByName_taken rule' autoId' now' createName' w1) as (H1 & H2 & _);
      rewrite ?Hsame; auto.
    unfold w1. simpl. rewrite lookup_insert_eq. eauto.
Qed.

Lemma createByName_spec_witness :
  let first := createByName ReadsFirst groupA 1%N (str "Magnus Home") nowhere in
  let second := createByName ReadsFirst groupB 2%N (str "magnus  home") (world first) in
  outcome first = Entered groupA
  /\ failureOf (outcome second) = Some NameTaken
  /\ world second = world first.
Proof.
  destruct (createByName_spec ReadsFirst groupA 1%N (str "Magnus Home") nowhere)
    as (_ & _ & Hfree).
  destruct Hfree as (Ho & _ & _ & _ & _ & Hnext);
    [vm_compute; discriminate|vm_compute; reflexivity|].
  split; [exact Ho|].
  apply (Hnext ReadsFirst groupB 2%N (str "magnus  home")).
  vm_compute. reflexivity.
Defined.

(** C4: [joinByName] fails with InvalidName on an empty key; otherwise
    it reads the claim of the key once, outside any transaction, fails
    with NotFound when there is none and else returns the id the claim
    holds; it never writes to the store. *)
Theorem joinByName_spec `{Lowercase} joinName w :
  let key := toNameKey joinName in
  let r := joinByName joinName w in
  db (world r) = db w
  /\ (key = [] ->
       failureOf (outcome r) = Some InvalidName /\ world r = w /\ requests r = [])
  /\ (key <> [] ->
       requests r = [Get (ByNameRef key)]
       /\ (homepagesByName (db w) !! key = None ->
            failureOf (outcome r) = Some NotFound /\ world r = w)
       /\ (forall homePageId, homepagesByName (db w) !! key = Some homePageId ->
            outcome r = Entered homePageId /\ saved (world r) = Some homePageId)).
Proof.
  intros key r. unfold r, joinByName. fold key.
  destruct key as [|c k] eqn:Hk; simpl.
  - repeat split; congruence.
  - destruct (homepagesByName (db w) !! (c :: k)) as [g|] eqn:Hg; simpl;
      repeat split; intros; simplify_eq; auto.
Qed.

Lemma joinByName_spec_witness :
  outcome (joinByName (str " magnus HOME ") magnusHome) = Entered groupA
  /\ failureOf (outcome (joinByName (str "nonexistent-key") magnusHome)) = Some NotFound
  /\ failureOf (outcome (joinByName (str "---") magnusHome)) = Some InvalidName.
Proof.
  split; [|split].
  - destruct (joinByName_spec (str " magnus HOME ") magnusHome) as (_ & _ & Hkey).
    destruct Hkey as (_ & _ & Hfound); [vm_compute; discriminate|].
    apply (Hfound groupA). vm_compute. reflexivity.
  - destruct (joinByName_spec (str "nonexistent-key") magnusHome) as (_ & _ & Hkey).
    destruct Hkey as (_ & Hnone & _); [vm_compute; discriminate|].
    apply Hnone. vm_compute. reflexivity.
  - destruct (joinByName_spec (str "---") magnusHome) as (_ & Hempty & _).
    apply Hempty. vm_compute. reflexivity.
Defined.

End OnboardingFacts.

(** ** The home tab *)

Module HomeTabFacts.
Import JS NameKey Firestore Onboarding HomeTab Scenario.
Import JSFacts NameKeyFacts TxFacts.
Local Open Scope string_scope.

(** [saveRename] past its two guards is its transaction. *)
Lemma saveRename_unfold `{Lowercase} rule now homePageId renameText homePageKey w :
  homePageId <> [] -> toNameKey renameText <> [] ->
  saveRename rule now (Some homePageId) renameText homePageKey w =
  let body := renameTx rule homePageId (trim renameText) (toNameKey renameText) homePageKey in
  match runTransaction now (db w) body with
  | (db', inr _) =>
      {| world := {| db := db'; saved := saved w |};
         outcome := Alerted "Saved" (str "HomePage name updated.");
         requests := traceOf (db w) body |}
  | (_, inl e) =>
      {| world := w;
         outcome := Alerted "Rename failed" (str (errorMessage e));
         requests := traceOf (db w) body |}
  end.
Proof.
  intros Hid Hk. unfold saveRename.
  destruct homePageId as [|c r]; [contradiction|].
  rewrite invalid_guard, toNameKey_trim.
  apply truthy_true in Hk. rewrite Hk. reflexivity.
Qed.

(** C3: [saveRename] to a key that another home page has claimed fails
    with NameTaken after its first read; the store is left as it was, so
    the home page keeps its name and key and both claims stay. *)
Theorem saveRename_name_taken `{Lowercase}
    rule now homePageId renameText homePageKey w other :
  homePageId <> [] ->
  toNameKey renameText <> [] ->
  homepagesByName (db w) !! toNameKey renameText = Some other ->
  other <> homePageId ->
  let r := saveRename rule now (Some homePageId) renameText homePageKey w in
  failureOf (outcome r) = Some NameTaken
  /\ world r = w
  /\ requests r = [Get (ByNameRef (toNameKey renameText))].
Proof.
  intros Hid Hk Hother Hne r. unfold r.
  rewrite saveRename_unfold by assumption. simpl.
  unfold runTransaction, traceOf.
  rewrite (renameTx_run_taken _ _ _ _ _ _ other) by assumption.
  simpl. repeat split.
Qed.

Lemma saveRename_name_taken_witness :
  let r := saveRename ReadsFirst 5%N (Some groupA) (str "Summer  hut")
             (Some (str "magnus-home")) twoHomes in
  failureOf (outcome r) = Some NameTaken
  /\ world r = twoHomes
  /\ requests r = [Get (ByNameRef (toNameKey (str "Summer  hut")))].
Proof.
  apply (saveRename_name_taken ReadsFirst 5%N groupA (str "Summer  hut")
           (Some (str "magnus-home")) twoHomes groupB).
  - vm_compute. discriminate.
  - vm_compute. discriminate.
  - vm_compute. reflexivity.
  - vm_compute. discriminate.
Defined.

(** A rename that does not look at the old claim commits: the home page
    has the new name and key, the new key is claimed, nothing is deleted. *)
Lemma saveRename_plain `{Lowercase} rule now homePageId renameText homePageKey w :
  homePageId <> [] ->
  toNameKey renameText <> [] ->
  unclaimedOrOwn (db w) (toNameKey renameText) homePageId ->
  readsOldClaim homePageKey (toNameKey renameText) = false ->
  saveRename rule now (Some homePageId) renameText homePageKey w =
  {| world :=
       {| db :=
            {| homepages :=
                 <[homePageId :=
                     {| createdAt := (homepages (db w) !! homePageId) ≫= createdAt;
                        name := Some (trim renameText);
                        nameKey := Some (toNameKey renameText) |}]> (homepages (db w));
               homepagesByName :=
                 <[toNameKey renameText := homePageId]> (homepagesByName (db w)) |};
          saved := saved w |};
     outcome := Alerted "Saved" (str "HomePage name updated.");
     requests := [Get (ByNameRef (toNameKey renameText)); Put (HomePageRef homePageId);
                  Put (ByNameRef (toNameKey renameText))] |}.
Proof.
  intros Hid Hk Hown Hg.
  rewrite saveRename_unfold by assumption. simpl.
  unfold runTransaction, traceOf.
  rewrite renameTx_run_plain by assumption. reflexivity.
Qed.

(** A rename that looks at the old claim, on a store that wants its reads
    first: the transaction is refused and nothing is written. *)
Lemma saveRename_late_read_refused `{Lowercase} now homePageId renameText oldKey w :
  homePageId <> [] ->
  toNameKey renameText <> [] ->
  unclaimedOrOwn (db w) (toNameKey renameText) homePageId ->
  readsOldClaim (Some oldKey) (toNameKey renameText) = true ->
  saveRename ReadsFirst now (Some homePageId) renameText (Some oldKey) w =
  {| world := w;
     outcome := Alerted "Rename failed" (str readAfterWriteMsg);
     requests := [Get (ByNameRef (toNameKey renameText)); Put (HomePageRef homePageId);
                  Put (ByNameRef (toNameKey renameText)); Get (ByNameRef oldKey)] |}.
Proof.
  intros Hid Hk Hown Hg.
  rewrite saveRename_unfold by assumption. simpl.
  unfold runTransaction, traceOf.
  rewrite renameTx_run_late_refused by assumption. reflexivity.
Qed.

(** The same on a store that runs the body as written, when the old claim
    still points to the home page: the claim moves from the old key to
    the new one. *)
Lemma saveRename_late_read_served `{Lowercase} now homePageId renameText oldKey w :
  homePageId <> [] ->
  toNameKey renameText <> [] ->
  unclaimedOrOwn (db w) (toNameKey renameText) homePageId ->
  readsOldClaim (Some oldKey) (toNameKey renameText) = true ->
  homepagesByName (db w) !! oldKey = Some homePageId ->
  let r := saveRename AsWritten now (Some homePageId) renameText (Some oldKey) w in
  homepagesByName (db (world r)) =
    delete oldKey (<[toNameKey renameText := homePageId]> (homepagesByName (db w)))
  /\ requests r =
       [Get (ByNameRef (toNameKey renameText)); Put (HomePageRef homePageId);
        Put (ByNameRef (toNameKey renameText)); Get (ByNameRef oldKey);
        Del (ByNameRef oldKey)]
  /\ outcome (joinByName renameText (world r)) = Entered homePageId
  /\ forall oldName, toNameKey oldName = oldKey ->
       failureOf (outcome (joinByName oldName (world r))) = Some NotFound.
Proof.
  intros Hid Hk Hown Hg Hold r. unfold r.
  rewrite saveRename_unfold by assumption. simpl.
  unfold runTransaction, traceOf.
  rewrite renameTx_run_late_served by assumption.
  case_decide; [|contradiction]. simpl.
  assert (Hne : oldKey <> toNameKey renameText).
  { simpl in Hg. apply andb_true_iff in Hg. destruct Hg as [_ Hg].
    apply negb_true_iff, bool_decide_eq_false in Hg. exact Hg. }
  assert (Hold' : oldKey <> []).
  { simpl in Hg. apply andb_true_iff in Hg. destruct Hg as [Hg _].
    now apply truthy_true. }
  split; [reflexivity|split; [reflexivity|split]].
  - unfold joinByName. apply truthy_true in Hk. rewrite Hk. simpl.
    rewrite lookup_delete_ne, lookup_insert_eq by assumption. reflexivity.
  - intros oldName Ho. unfold joinByName. rewrite Ho.
    apply truthy_true in Hold'. rewrite Hold'. simpl.
    rewrite lookup_delete_eq. reflexivity.
Qed.

(** When the new key is not empty and is free or already claimed by the
    home page itself, [saveRename] asks for the
    claim of the new key, then for the write of the name and key of the
    home page and for the write of the claim of the new key, in this
    order and before anything else; it asks for the deletion of a claim
    only for the previous key, when that key differs from the new one and
    its claim points to the home page.  When the previous key is unknown
    or is the new key itself, the rename commits: the home page has the
    new name and key, the new key is claimed by the home page, no other
    claim changes, and a join by the new name returns the home page. *)
Theorem saveRename_spec `{Lowercase} rule now homePageId renameText homePageKey w :
  homePageId <> [] ->
  toNameKey renameText <> [] ->
  unclaimedOrOwn (db w) (toNameKey renameText) homePageId ->
  let newKey := toNameKey renameText in
  let r := saveRename rule now (Some homePageId) renameText homePageKey w in
  (exists rest,
     requests r =
       ([Get (ByNameRef newKey); Put (HomePageRef homePageId); Put (ByNameRef newKey)]
        ++ rest)%list
     /\ forall ref, Del ref ∈ rest ->
          exists oldKey,
            ref = ByNameRef oldKey /\ homePageKey = Some oldKey /\ oldKey <> newKey
            /\ homepagesByName (db w) !! oldKey = Some homePageId)
  /\ (readsOldClaim homePageKey newKey = false ->
       outcome r = Alerted "Saved" (str "HomePage name updated.")
       /\ homepages (db (world r)) !! homePageId =
            Some {| createdAt := (homepages (db w) !! homePageId) ≫= createdAt;
                    name := Some (trim renameText);
                    nameKey := Some newKey |}
       /\ homepagesByName (db (world r)) = <[newKey := homePageId]> (homepagesByName (db w))
       /\ outcome (joinByName renameText (world r)) = Entered homePageId).
Proof.
  intros Hid Hk Hown newKey r.
  destruct (readsOldClaim homePageKey newKey) eqn:Hg.
  - split; [|discriminate].
    destruct homePageKey as [oldKey|]; [|discriminate].
    assert (Hne : oldKey <> newKey).
    { simpl in Hg. apply andb_true_iff in Hg. destruct Hg as [_ Hg].
      apply negb_true_iff, bool_decide_eq_false in Hg. exact Hg. }
    destruct rule.
    + exists [Get (ByNameRef oldKey)]. unfold r.
      rewrite saveRename_late_read_refused by assumption. simpl.
      split; [reflexivity|]. intros ref Hin.
      apply list_elem_of_singleton in Hin. discriminate.
    + unfold r. rewrite saveRename_unfold by assumption. simpl.
      unfold runTransaction, traceOf.
      rewrite renameTx_run_late_served by assumption.
      case_decide as Hold; simpl.
      * exists [Get (ByNameRef oldKey); Del (ByNameRef oldKey)].
        split; [reflexivity|]. intros ref Hin.
        apply elem_of_cons in Hin. destruct Hin as [Hin|Hin]; [discriminate|].
        apply list_elem_of_singleton in Hin. injection Hin as ->.
        exists oldKey. auto.
      * exists [Get (ByNameRef oldKey)].
        split; [reflexivity|]. intros ref Hin.
        apply list_elem_of_singleton in Hin. discriminate.
  - unfold r. rewrite saveRename_plain by assumption. simpl. split.
    + exists []. split; [reflexivity|]. intros ref Hin. inversion Hin.
    + intros _. split; [reflexivity|]. split; [apply lookup_insert_eq|].
      split; [reflexivity|].
      unfold joinByName. fold newKey. apply truthy_true in Hk. fold newKey in Hk.
      rewrite Hk. simpl. rewrite lookup_insert_eq. reflexivity.
Qed.

Lemma saveRename_spec_witness :
  let r := saveRename ReadsFirst 5%N (Some groupA) (str "MAGNUS HOME")
             (Some (str "magnus-home")) magnusHome in
  requests r = [Get (ByNameRef (str "magnus-home")); Put (HomePageRef groupA);
                Put (ByNameRef (str "magnus-home"))]
  /\ homepages (db (world r)) !! groupA =
       Some {| createdAt := Some 1%N; name := Some (str "MAGNUS HOME");
               nameKey := Some (str "magnus-home") |}
  /\ outcome (joinByName (str "MAGNUS HOME") (world r)) = Entered groupA.
Proof.
  destruct (saveRename_spec ReadsFirst 5%N groupA (str "MAGNUS HOME")
              (Some (str "magnus-home")) magnusHome) as [_ Hcommit].
  - vm_compute. discriminate.
  - vm_compute. discriminate.
  - right. vm_compute. reflexivity.
  - destruct Hcommit as (_ & Hhp & _ & Hjoin); [vm_compute; reflexivity|].
    split; [vm_compute; reflexivity|]. split; [exact Hhp|exact Hjoin].
Defined.

(** Where the new name has the key of the old one, the key is claimed by
    the home page itself, the rename is saved, and a join by the old name
    still returns the home page. *)
Lemma saveRename_same_key_old_name_joins :
  let rename rule :=
    saveRename rule 5%N (Some groupA) (str "MAGNUS HOME")
      (Some (str "magnus-home")) magnusHome in
  toNameKey (str "MAGNUS HOME") <> []
  /\ homepagesByName (db magnusHome) !! toNameKey (str "MAGNUS HOME") = Some groupA
  /\ outcome (rename ReadsFirst) = Alerted "Saved" (str "HomePage name updated.")
  /\ outcome (joinByName (str "Magnus Home") (world (rename ReadsFirst))) = Entered groupA
  /\ failureOf (outcome (joinByName (str "Magnus Home") (world (rename ReadsFirst))))
       <> Some NotFound
  /\ outcome (rename AsWritten) = Alerted "Saved" (str "HomePage name updated.")
  /\ outcome (joinByName (str "Magnus Home") (world (rename AsWritten))) = Entered groupA
  /\ failureOf (outcome (joinByName (str "Magnus Home") (world (rename AsWritten))))
       <> Some NotFound.
Proof. vm_compute. repeat split; discriminate. Qed.

(** *** Reads and writes *)

(** X4: the transaction of [createByName] reads before it writes. *)
Lemma createByName_reads_first `{Lowercase} rule autoId now createName w :
  readsBeforeWrites (requests (createByName rule autoId now createName w)) = true.
Proof.
  unfold createByName.
  destruct (negb (truthy (trim createName)) || _); [reflexivity|].
  unfold runTransaction, traceOf. rewrite createTx_run.
  destruct (homepagesByName (db w) !! _); reflexivity.
Qed.

(** The transaction of [saveRename] reads after its writes whenever it
    looks at the old claim. *)
Lemma saveRename_reads_late `{Lowercase} rule now homePageId renameText oldKey w :
  homePageId <> [] ->
  toNameKey renameText <> [] ->
  unclaimedOrOwn (db w) (toNameKey renameText) homePageId ->
  readsOldClaim (Some oldKey) (toNameKey renameText) = true ->
  readsBeforeWrites
    (requests (saveRename rule now (Some homePageId) renameText (Some oldKey) w)) = false.
Proof.
  intros Hid Hk Hown Hg. destruct rule.
  - rewrite saveRename_late_read_refused by assumption. reflexivity.
  - rewrite saveRename_unfold by assumption. simpl.
    unfold runTransaction, traceOf.
    rewrite renameTx_run_late_served by assumption.
    case_decide; reflexivity.
Qed.

(** C2, at the rename of "Magnus Home" to "New Name" on the store that
    wants its reads first: the new key is not empty and not claimed, the
    previous key is known and differs from it, and yet the rename fails.
    The read of the old claim comes after the two writes and is refused,
    so nothing is written: the home page keeps its old name and key, a
    join by the new name finds nothing and a join by the old name still
    returns the home page. *)
Theorem saveRename_to_new_key_fails :
  let r := saveRename ReadsFirst 5%N (Some groupA) (str "New Name")
             (Some (str "magnus-home")) magnusHome in
  toNameKey (str "New Name") = str "new-name"
  /\ homepagesByName (db magnusHome) !! str "new-name" = None
  /\ homepagesByName (db magnusHome) !! str "magnus-home" = Some groupA
  /\ outcome r = Alerted "Rename failed" (str readAfterWriteMsg)
  /\ world r = magnusHome
  /\ homepages (db (world r)) !! groupA =
       Some {| createdAt := Some 1%N; name := Some (str "Magnus Home");
               nameKey := Some (str "magnus-home") |}
  /\ failureOf (outcome (joinByName (str "New Name") (world r))) = Some NotFound
  /\ outcome (joinByName (str "Magnus Home") (world r)) = Entered groupA.
Proof. vm_compute. repeat split. Qed.

(** C8, at the rename of "Magnus Home" to "New Name": the transaction
    asks for the claim of the old key after its two writes.  A store that
    wants the reads first refuses it and the rename fails; a store that
    runs the body as written goes on to the deletion. *)
Theorem saveRename_reads_after_writes :
  let rename rule :=
    saveRename rule 5%N (Some groupA) (str "New Name")
      (Some (str "magnus-home")) magnusHome in
  requests (rename ReadsFirst) =
    [Get (ByNameRef (str "new-name")); Put (HomePageRef groupA);
     Put (ByNameRef (str "new-name")); Get (ByNameRef (str "magnus-home"))]
  /\ readsBeforeWrites (requests (rename ReadsFirst)) = false
  /\ outcome (rename ReadsFirst) = Alerted "Rename failed" (str readAfterWriteMsg)
  /\ world (rename ReadsFirst) = magnusHome
  /\ requests (rename AsWritten) =
       [Get (ByNameRef (str "new-name")); Put (HomePageRef groupA);
        Put (ByNameRef (str "new-name")); Get (ByNameRef (str "magnus-home"));
        Del (ByNameRef (str "magnus-home"))]
  /\ readsBeforeWrites (requests (rename AsWritten)) = false.
Proof. vm_compute. repeat split. Qed.

(** The name that comes from the rename field has at most 40 code units
    after the trim. *)
Lemma renameInput_name_length typed : length (trim (renameInput typed)) <= 40.
Proof.
  pose proof (length_trim (renameInput typed)) as Ht.
  unfold renameInput in *. rewrite length_take in Ht. lia.
Qed.

(** C9, at a name of 51 characters: [createByName] stores it whole; only
    the key is cut to 40. *)
Theorem createByName_stores_long_name :
  let longName := str "The Hansen Family Cabin by the Red Lake in Telemark" in
  let r := createByName ReadsFirst groupB 3%N longName magnusHome in
  outcome r = Entered groupB
  /\ name <$> (homepages (db (world r)) !! groupB) = Some (Some longName)
  /\ length (trim longName) = 51
  /\ length <$> ((homepages (db (world r)) !! groupB) ≫= nameKey) = Some 40.
Proof. vm_compute. repeat split. Qed.

End HomeTabFacts.

(** ** The shopping tab *)

Module ShoppingFacts.
Import JS Firestore ShoppingTab Scenario TxFacts.
Local Open Scope string_scope.

Lemma dupQuery_nil normalized items :
  dupQuery normalized items = [] <-> forall i, i ∈ items -> nameLower i <> normalized.
Proof.
  unfold dupQuery. split.
  - intros Hq i Hi Hn.
    assert (Hf : i ∈ filter (fun i => nameLower i = normalized) items)
      by (apply list_elem_of_filter; auto).
    destruct (filter _ items); [inversion Hf|discriminate].
  - intros Hno.
    destruct (filter (fun i => nameLower i = normalized) items) as [|i t] eqn:Hf;
      [reflexivity|].
    assert (Hi : i ∈ filter (fun i => nameLower i = normalized) items)
      by (rewrite Hf; left).
    apply list_elem_of_filter in Hi. destruct Hi as [Hn Hi].
    destruct (Hno i Hi Hn).
Qed.

(** An add without a name, or without a home page, does nothing. *)
Lemma addItem_skipped `{Lowercase} autoId now homePageId text ls :
  trim text = [] \/ truthyOpt homePageId = false ->
  addItem autoId now homePageId text ls = (ls, Skipped).
Proof.
  intros [Hn|Hh]; unfold addItem.
  - now rewrite Hn.
  - rewrite Hh, orb_true_r. reflexivity.
Qed.

(** C10, as the code has it: an add with a name that is not blank, on a
    home page.  If an item of the list has the lowercase of the trimmed
    name as its [nameLower], nothing is added and the lists are as they
    were; otherwise one item is put on the list of the home page, with
    the trimmed name, [purchased] false and a [nameLower] that is the
    lowercase of its name, and the other lists are as they were. *)
Theorem addItem_spec `{Lowercase} autoId now homePageId text ls :
  homePageId <> [] -> trim text <> [] ->
  let normalized := toLowerCase (trim text) in
  let items := shoppingItems ls homePageId in
  let r := addItem autoId now (Some homePageId) text ls in
  ((exists i, i ∈ items /\ nameLower i = normalized) -> fst r = ls)
  /\ ((forall i, i ∈ items -> nameLower i <> normalized) ->
       snd r = Added
       /\ (exists it,
             shoppingItems (fst r) homePageId = it :: items
             /\ itemName it = trim text
             /\ nameLower it = toLowerCase (itemName it)
             /\ purchased it = false)
       /\ forall other, other <> homePageId -> fst r !! other = ls !! other).
Proof.
  intros Hid Hn normalized items r.
  assert (Hr : r = match dupQuery normalized items with
                   | _ :: _ =>
                       (ls, AlreadyOnList
                              (quote :: trim text ++ quote
                                 :: str " is already in this HomePage."))
                   | [] =>
                       (<[homePageId :=
                            {| id := autoId; itemName := trim text;
                               nameLower := normalized; purchased := false;
                               itemCreatedAt := Some now |} :: items]> ls,
                        Added)
                   end).
  { unfold r, addItem. apply truthy_true in Hn, Hid. simpl. rewrite Hn, Hid. reflexivity. }
  split.
  - intros (i & Hi & Hl).
    destruct (dupQuery normalized items) as [|d t] eqn:Hq.
    + destruct (proj1 (dupQuery_nil normalized items) Hq i Hi Hl).
    + now rewrite Hr.
  - intros Hno. apply dupQuery_nil in Hno. rewrite Hr, Hno. simpl.
    split; [reflexivity|split].
    + eexists. unfold shoppingItems at 1. rewrite lookup_insert_eq. simpl.
      repeat split.
    + intros other Hne. now rewrite lookup_insert_ne.
Qed.

Lemma addItem_spec_witness :
  let r := addItem (str "i2") 4%N (Some groupA) (str " Bread ") pantry in
  fst (addItem (str "i2") 4%N (Some groupA) (str "  MILK") pantry) = pantry
  /\ snd r = Added
  /\ exists it, shoppingItems (fst r) groupA = [it; milk]
                /\ itemName it = str "Bread" /\ nameLower it = str "bread"
                /\ purchased it = false.
Proof.
  split.
  - apply (addItem_spec (str "i2") 4%N groupA (str "  MILK") pantry).
    + vm_compute. discriminate.
    + vm_compute. discriminate.
    + exists milk. split; [|vm_compute; reflexivity].
      vm_compute. left.
  - destruct (addItem_spec (str "i2") 4%N groupA (str " Bread ") pantry)
      as (_ & Hadd).
    + vm_compute. discriminate.
    + vm_compute. discriminate.
    + destruct Hadd as (Ha & (it & H1 & H2 & H3 & H4) & _).
      * intros i Hi. change (shoppingItems pantry groupA) with [milk] in Hi.
        apply list_elem_of_singleton in Hi. subst i. vm_compute. discriminate.
      * split; [exact Ha|]. exists it.
        split; [exact H1|]. split; [exact H2|]. split; [|exact H4].
        rewrite H3, H2. vm_compute. reflexivity.
Defined.

(** C10 as it is worded fails on a blank name: nothing on the list has an
    empty [nameLower], and yet nothing is added. *)
Lemma addItem_blank_adds_nothing :
  let r := addItem (str "i2") 4%N (Some groupA) (str "   ") pantry in
  (forall i, i ∈ shoppingItems pantry groupA ->
     nameLower i <> toLowerCase (trim (str "   ")))
  /\ fst r = pantry
  /\ shoppingItems (fst r) groupA = [milk].
Proof.
  split; [|split; vm_compute; reflexivity].
  intros i Hi. change (shoppingItems pantry groupA) with [milk] in Hi.
  apply list_elem_of_singleton in Hi. subst i. vm_compute. discriminate.
Qed.

End ShoppingFacts.

(** ** More on the name normalizer *)

Module NameKeyMore.
Import JS NameKey JSFacts NameKeyFacts.
Local Open Scope string_scope.

Lemma isSpace_asciiLower c : isSpace (asciiLower c) = isSpace c.
Proof.
  unfold asciiLower.
  destruct ((65 <=? c)%N && (c <=? 90)%N) eqn:Hu; [|reflexivity].
  unbool.
  assert (H1 : isSpace c = false).
  { apply not_true_is_false. intros Hs. unfold isSpace in Hs. unbool; lia. }
  rewrite H1. apply not_true_is_false. intros Hs. unfold isSpace in Hs. unbool; lia.
Qed.

Lemma asciiLower_idem c : asciiLower (asciiLower c) = asciiLower c.
Proof.
  unfold asciiLower.
  destruct ((65 <=? c)%N && (c <=? 90)%N) eqn:Hu; [|now rewrite Hu].
  destruct ((65 <=? c + 32)%N && (c + 32 <=? 90)%N) eqn:Hv; [|reflexivity].
  unbool. lia.
Qed.

Lemma isAscii_asciiLower c : isAscii c = true -> isAscii (asciiLower c) = true.
Proof.
  unfold isAscii, asciiLower. intros Ha.
  destruct ((65 <=? c)%N && (c <=? 90)%N) eqn:Hu; [|assumption].
  apply N.ltb_lt. unbool. lia.
Qed.

Section Mapped.
Variables (p : N -> bool) (f : N -> N).
Hypothesis p_f : forall c, p (f c) = p c.

Lemma dropWhile_map s : dropWhile p (map f s) = map f (dropWhile p s).
Proof.
  induction s as [|c r IH]; [reflexivity|]. simpl. rewrite p_f.
  destruct (p c); [assumption|reflexivity].
Qed.

Lemma dropWhileEnd_map s : dropWhileEnd p (map f s) = map f (dropWhileEnd p s).
Proof.
  induction s as [|c r IH]; [reflexivity|]. simpl. rewrite IH, p_f.
  destruct (dropWhileEnd p r); simpl; [destruct (p c)|]; reflexivity.
Qed.
End Mapped.

Lemma trim_asciiLower s : trim (map asciiLower s) = map asciiLower (trim s).
Proof.
  unfold trim.
  rewrite dropWhile_map, dropWhileEnd_map by apply isSpace_asciiLower.
  reflexivity.
Qed.

Lemma forallb_map_asciiLower s :
  forallb isAscii s = true -> forallb isAscii (map asciiLower s) = true.
Proof.
  induction s as [|c r IH]; [auto|]. simpl. intros H.
  apply andb_true_iff in H. destruct H as [Hc Hr].
  rewrite isAscii_asciiLower by assumption. now apply IH.
Qed.

Lemma toNameKey_asciiLower `{Lowercase} s :
  forallb isAscii s = true -> toNameKey (map asciiLower s) = toNameKey s.
Proof.
  intros Ha. unfold toNameKey. rewrite trim_asciiLower.
  rewrite (toLowerCase_ascii (map asciiLower (trim s)))
    by now apply forallb_map_asciiLower, forallb_trim.
  rewrite (toLowerCase_ascii (trim s)) by now apply forallb_trim.
  rewrite map_map.
  rewrite (map_ext (fun c => asciiLower (asciiLower c)) asciiLower)
    by (intros c; apply asciiLower_idem).
  reflexivity.
Qed.

(** X3: two names of ASCII characters that differ only in the case of their
    letters have the same key. *)
Theorem toNameKey_ignores_case `{Lowercase} s t :
  forallb isAscii s = true -> forallb isAscii t = true ->
  map asciiLower s = map asciiLower t ->
  toNameKey s = toNameKey t.
Proof.
  intros Hs Ht Hst.
  rewrite <- (toNameKey_asciiLower s Hs), <- (toNameKey_asciiLower t Ht).
  now rewrite Hst.
Qed.

Lemma toNameKey_ignores_case_witness :
  toNameKey (str "Magnus Home") = toNameKey (str "MAGNUS home").
Proof.
  apply (toNameKey_ignores_case (str "Magnus Home") (str "MAGNUS home"));
    vm_compute; reflexivity.
Defined.

(** X1: every key has at most 40 code units, all of them lowercase letters,
    digits or hyphens, does not start with a hyphen and has no two hyphens
    in a row; it is empty, or it matches the key pattern, or it is a key
    of exactly 40 code units that ends in a hyphen. *)
Theorem toNameKey_key_shape `{Lowercase} s :
  length (toNameKey s) <= 40
  /\ forallb isKeyChar (toNameKey s) = true
  /\ headOutside isHyphen (toNameKey s) = true
  /\ noRepeat isHyphen (toNameKey s) = true
  /\ (toNameKey s = []
      \/ matchesKeyPattern (toNameKey s) = true
      \/ (length (toNameKey s) = 40
          /\ isHyphen (List.last (toNameKey s) hyphen) = true)).
Proof.
  split; [apply toNameKey_length|].
  split; [apply toNameKey_keyChars|].
  split; [apply toNameKey_head|].
  split; [apply toNameKey_noRepeat|apply toNameKey_shape].
Qed.

Lemma length_dropLastHyphen s : length (dropLastHyphen s) <= length s.
Proof.
  induction s as [|c r IH]; [simpl; lia|].
  destruct r as [|d t].
  - simpl. destruct (isHyphen c); simpl; lia.
  - change (dropLastHyphen (c :: d :: t)) with (c :: dropLastHyphen (d :: t)).
    simpl in *. lia.
Qed.

(** On a string that already looks like a key, the normalizer has only
    the hyphen at the end left to remove. *)
Lemma untruncated_of_key `{Lowercase} k :
  forallb isKeyChar k = true -> noRepeat isHyphen k = true ->
  headOutside isHyphen k = true ->
  untruncated k = dropLastHyphen k.
Proof.
  intros Hk Hn Hh.
  assert (Hsp : forallb (fun c => negb (isSpace c)) k = true).
  { apply (forallb_impl isKeyChar); [|assumption].
    intros c Hc. now rewrite isKeyChar_not_space. }
  assert (Htrim : trim k = k).
  { unfold trim. now rewrite dropWhile_none, dropWhileEnd_none. }
  unfold untruncated. rewrite Htrim.
  rewrite toLowerCase_ascii by (apply (forallb_impl isKeyChar); auto using isKeyChar_ascii).
  rewrite map_asciiLower_id by assumption.
  rewrite (replaceRuns_none isSpace) by assumption.
  rewrite stripNonKey_id by assumption.
  unfold replaceRuns. rewrite replaceRunsFrom_id by (auto using isHyphen_eq).
  unfold stripEdgeHyphens. f_equal.
  destruct k as [|c r]; [reflexivity|]. simpl in *.
  apply negb_true_iff in Hh. now rewrite Hh.
Qed.

(** X2: normalizing a key again gives the key back exactly when the key is
    empty or does not end in a hyphen. *)
Theorem toNameKey_idempotent_iff `{Lowercase} s :
  toNameKey (toNameKey s) = toNameKey s
  <-> (toNameKey s = [] \/ isHyphen (List.last (toNameKey s) hyphen) = false).
Proof.
  split.
  - intros Hid.
    assert (Hlen : length (untruncated (toNameKey s)) <= 40).
    { rewrite untruncated_of_key
        by auto using toNameKey_keyChars, toNameKey_noRepeat, toNameKey_head.
      pose proof (length_dropLastHyphen (toNameKey s)).
      pose proof (toNameKey_length s). lia. }
    pose proof (toNameKey_last_uncut (toNameKey s) Hlen) as Hl.
    now rewrite Hid in Hl.
  - intros [He|Hl].
    + rewrite He. unfold toNameKey. rewrite toLowerCase_ascii by reflexivity. reflexivity.
    + now apply toNameKey_idempotent_unless_cut.
Qed.

End NameKeyMore.

(** ** How the handlers compose *)

Module ProtocolFacts.
Import JS NameKey Firestore Onboarding HomeTab Boot Invariants Scenario Examples.
Import (notations) HomeScreen.
Import JSFacts NameKeyFacts TxFacts.
Local Open Scope string_scope.

(** [createByName] on a free key, in full. *)
Lemma createByName_free `{Lowercase} rule autoId now createName w :
  toNameKey createName <> [] ->
  homepagesByName (db w) !! toNameKey createName = None ->
  createByName rule autoId now createName w =
  {| world :=
       {| db :=
            {| homepages :=
                 <[autoId := {| createdAt := Some now;
                                name := Some (trim createName);
                                nameKey := Some (toNameKey createName) |}]>
                   (homepages (db w));
               homepagesByName :=
                 <[toNameKey createName := autoId]> (homepagesByName (db w)) |};
          saved := Some autoId |};
     outcome := Entered autoId;
     requests := [Get (ByNameRef (toNameKey createName)); Put (HomePageRef autoId);
                  Put (ByNameRef (toNameKey createName))] |}.
Proof.
  intros Hk Hfree. unfold createByName.
  rewrite invalid_guard, toNameKey_trim.
  apply truthy_true in Hk. rewrite Hk. simpl.
  unfold runTransaction, traceOf. rewrite createTx_run, Hfree. reflexivity.
Qed.

(** [createByName] either enters the new home page or leaves the world as
    it was. *)
Lemma createByName_cases `{Lowercase} rule autoId now createName w :
  (toNameKey createName <> []
   /\ homepagesByName (db w) !! toNameKey createName = None)
  \/ (world (createByName rule autoId now createName w) = w
      /\ exists title message,
           outcome (createByName rule autoId now createName w) = Alerted title message
           /\ title <> "Saved").
Proof.
  destruct (toNameKey createName) as [|c k] eqn:Hk.
  - right. unfold createByName. rewrite invalid_guard, toNameKey_trim, Hk. simpl.
    split; [reflexivity|]. do 2 eexists. split; [reflexivity|discriminate].
  - destruct (homepagesByName (db w) !! (c :: k)) as [g|] eqn:Hg.
    + right. unfold createByName. rewrite invalid_guard, toNameKey_trim, Hk. simpl.
      unfold runTransaction, traceOf. rewrite createTx_run, Hg. simpl.
      split; [reflexivity|]. do 2 eexists. split; [reflexivity|discriminate].
    + left. split; [discriminate|reflexivity].
Qed.

(** [saveRename] either saves, and then the store is the old one with the
    home page merged, the new key claimed and at most the claim of the
    previous key deleted, or it leaves the world as it was. *)
Lemma saveRename_cases `{Lowercase} rule now homePageId renameText homePageKey w :
  let newKey := toNameKey renameText in
  let r := saveRename rule now homePageId renameText homePageKey w in
  (world r = w /\ outcome r <> HomeScreen.savedAlert)
  \/ (outcome r = HomeScreen.savedAlert
      /\ saved (world r) = saved w
      /\ newKey <> []
      /\ unclaimedOrOwn (db w) newKey (default [] homePageId)
      /\ exists id dropOld,
           homePageId = Some id /\ id <> []
           /\ db (world r) = renamed (db w) id (trim renameText) newKey dropOld
           /\ match dropOld with
              | Some oldKey =>
                  homePageKey = Some oldKey /\ oldKey <> newKey /\ oldKey <> []
                  /\ homepagesByName (db w) !! oldKey = Some id
              | None =>
                  readsOldClaim homePageKey newKey = false
                  \/ exists oldKey, homePageKey = Some oldKey /\ oldKey <> newKey
                                    /\ homepagesByName (db w) !! oldKey <> Some id
              end).
Proof.
  intros newKey r.
  destruct homePageId as [[|c0 id0]|];
    [left; split; [reflexivity|discriminate]| |left; split; [reflexivity|discriminate]].
  set (id := c0 :: id0) in *.
  assert (Hid : id <> []) by discriminate.
  destruct newKey as [|c k] eqn:Hk.
  { left. unfold r, saveRename. fold id. unfold id at 1.
    rewrite invalid_guard, toNameKey_trim. fold newKey. rewrite Hk. simpl.
    split; [reflexivity|discriminate]. }
  assert (Hne : toNameKey renameText <> []) by (fold newKey; rewrite Hk; discriminate).
  rewrite <- Hk.
  destruct (homepagesByName (db w) !! newKey) as [g|] eqn:Hg.
  - destruct (decide (g = id)) as [->|Hother].
    + assert (Hown : unclaimedOrOwn (db w) (toNameKey renameText) id) by (right; exact Hg).
      destruct (readsOldClaim homePageKey newKey) eqn:Hguard.
      * destruct homePageKey as [oldKey|]; [|discriminate].
        assert (Hold : oldKey <> newKey /\ oldKey <> []).
        { simpl in Hguard. apply andb_true_iff in Hguard. destruct Hguard as [Ht Hd].
          apply negb_true_iff, bool_decide_eq_false in Hd.
          split; [exact Hd|now apply truthy_true]. }
        destruct rule.
        -- left. unfold r. rewrite HomeTabFacts.saveRename_late_read_refused by assumption.
           split; [reflexivity|discriminate].
        -- right. unfold r. rewrite HomeTabFacts.saveRename_unfold by assumption. simpl.
           unfold runTransaction, traceOf.
           rewrite renameTx_run_late_served by assumption.
           case_decide as Hpoints; simpl; (do 4 (split; [try reflexivity; assumption|])).
           ++ exists id, (Some oldKey). repeat split; tauto.
           ++ exists id, None. repeat split; try tauto.
              right. exists oldKey. tauto.
      * right. unfold r. rewrite HomeTabFacts.saveRename_plain by assumption. simpl.
        do 4 (split; [try reflexivity; assumption|]).
        exists id, None. split; [reflexivity|]. split; [exact Hid|]. split; [reflexivity|]. now left.
    + left. unfold r. rewrite HomeTabFacts.saveRename_unfold by assumption. simpl.
      unfold runTransaction, traceOf.
      rewrite (renameTx_run_taken _ _ _ _ _ _ g) by assumption.
      split; [reflexivity|discriminate].
  - assert (Hown : unclaimedOrOwn (db w) (toNameKey renameText) id) by (left; exact Hg).
    destruct (readsOldClaim homePageKey newKey) eqn:Hguard.
    + destruct homePageKey as [oldKey|]; [|discriminate].
      assert (Hold : oldKey <> newKey /\ oldKey <> []).
      { simpl in Hguard. apply andb_true_iff in Hguard. destruct Hguard as [Ht Hd].
        apply negb_true_iff, bool_decide_eq_false in Hd.
        split; [exact Hd|now apply truthy_true]. }
      destruct rule.
      * left. unfold r. rewrite HomeTabFacts.saveRename_late_read_refused by assumption.
        split; [reflexivity|discriminate].
      * right. unfold r. rewrite HomeTabFacts.saveRename_unfold by assumption. simpl.
        unfold runTransaction, traceOf.
        rewrite renameTx_run_late_served by assumption.
        case_decide as Hpoints; simpl; (do 4 (split; [try reflexivity; assumption|])).
        -- exists id, (Some oldKey). repeat split; tauto.
        -- exists id, None. repeat split; try tauto.
           right. exists oldKey. tauto.
    + right. unfold r. rewrite HomeTabFacts.saveRename_plain by assumption. simpl.
      do 4 (split; [try reflexivity; assumption|]).
      exists id, None. split; [reflexivity|]. split; [exact Hid|]. split; [reflexivity|]. now left.
Qed.

(** X5: after a create, a join by any text with the key of the created name
    returns the new home page. *)
Theorem join_after_create `{Lowercase} rule autoId now createName joinName w :
  toNameKey createName <> [] ->
  homepagesByName (db w) !! toNameKey createName = None ->
  toNameKey joinName = toNameKey createName ->
  let w1 := world (createByName rule autoId now createName w) in
  outcome (joinByName joinName w1) = Entered autoId
  /\ saved (world (joinByName joinName w1)) = Some autoId.
Proof.
  intros Hk Hfree Hsame w1. unfold w1.
  rewrite createByName_free by assumption. simpl.
  unfold joinByName. rewrite Hsame.
  apply truthy_true in Hk. rewrite Hk. simpl.
  rewrite lookup_insert_eq. split; reflexivity.
Qed.

Lemma join_after_create_witness :
  outcome (joinByName (str " MAGNUS   home!")
             (world (createByName ReadsFirst groupA 1%N (str "Magnus Home") nowhere)))
  = Entered groupA.
Proof.
  apply (join_after_create ReadsFirst groupA 1%N (str "Magnus Home")
           (str " MAGNUS   home!") nowhere).
  - vm_compute. discriminate.
  - vm_compute. reflexivity.
  - vm_compute. reflexivity.
Defined.

(** X6: the home tab shows the stored key as the text to join by.  After a
    create whose key does not end in a hyphen, a join by that key finds
    the home page. *)
Theorem join_by_shared_key `{Lowercase} rule autoId now createName w :
  toNameKey createName <> [] ->
  homepagesByName (db w) !! toNameKey createName = None ->
  isHyphen (List.last (toNameKey createName) hyphen) = false ->
  let w1 := world (createByName rule autoId now createName w) in
  (homepages (db w1) !! autoId) ≫= nameKey = Some (toNameKey createName)
  /\ outcome (joinByName (toNameKey createName) w1) = Entered autoId.
Proof.
  intros Hk Hfree Hl w1. unfold w1.
  rewrite createByName_free by assumption. simpl.
  split; [now rewrite lookup_insert_eq|].
  unfold joinByName. rewrite toNameKey_idempotent_unless_cut by assumption.
  apply truthy_true in Hk. rewrite Hk. simpl.
  now rewrite lookup_insert_eq.
Qed.

Lemma join_by_shared_key_witness :
  toNameKey (str "Magnus Home") = str "magnus-home"
  /\ outcome (joinByName (toNameKey (str "Magnus Home"))
                (world (createByName ReadsFirst groupA 1%N (str "Magnus Home") nowhere)))
     = Entered groupA.
Proof.
  split; [vm_compute; reflexivity|].
  destruct (join_by_shared_key ReadsFirst groupA 1%N (str "Magnus Home") nowhere)
    as [_ Hjoin].
  - vm_compute. discriminate.
  - vm_compute. reflexivity.
  - vm_compute. reflexivity.
  - exact Hjoin.
Defined.

(** X7: a handler that reports a failure has written nothing: the store and
    the saved id are as before. *)
Theorem failed_handlers_write_nothing `{Lowercase}
    rule autoId now text homePageId homePageKey w :
  (failureOf (outcome (createByName rule autoId now text w)) <> None ->
   world (createByName rule autoId now text w) = w)
  /\ (failureOf (outcome (joinByName text w)) <> None ->
      world (joinByName text w) = w)
  /\ (failureOf (outcome (saveRename rule now homePageId text homePageKey w)) <> None ->
      world (saveRename rule now homePageId text homePageKey w) = w).
Proof.
  split; [|split].
  - destruct (createByName_cases rule autoId now text w) as [[Hk Hfree]|[Hw _]];
      [|auto].
    rewrite createByName_free by assumption. simpl. congruence.
  - unfold joinByName.
    destruct (truthy (toNameKey text)); simpl; [|auto].
    destruct (homepagesByName (db w) !! toNameKey text); simpl; [congruence|auto].
  - destruct (saveRename_cases rule now homePageId text homePageKey w)
      as [[Hw _]|[Ho _]]; [auto|].
    rewrite Ho. simpl. congruence.
Qed.

Lemma failed_handlers_write_nothing_witness :
  world (createByName ReadsFirst groupB 2%N (str "magnus home") magnusHome) = magnusHome
  /\ world (joinByName (str "nobody") magnusHome) = magnusHome
  /\ world (saveRename ReadsFirst 3%N (Some groupA) (str "Summer Hut")
              (Some (str "magnus-home")) twoHomes) = twoHomes.
Proof.
  destruct (failed_handlers_write_nothing ReadsFirst groupB 2%N (str "magnus home")
              None None magnusHome) as (Hc & _ & _).
  destruct (failed_handlers_write_nothing ReadsFirst groupB 2%N (str "nobody")
              None None magnusHome) as (_ & Hj & _).
  destruct (failed_handlers_write_nothing ReadsFirst groupB 3%N (str "Summer Hut")
              (Some groupA) (Some (str "magnus-home")) twoHomes) as (_ & _ & Hr).
  split; [apply Hc; vm_compute; discriminate|].
  split; [apply Hj; vm_compute; discriminate|].
  apply Hr. vm_compute. discriminate.
Defined.

Lemma renamed_other_homepage d id n newKey dropOld id' :
  id' <> id -> homepages (renamed d id n newKey dropOld) !! id' = homepages d !! id'.
Proof. intros Hne. simpl. now rewrite lookup_insert_ne. Qed.

Lemma renamed_other_claim d id n newKey dropOld k :
  k <> newKey -> Some k <> dropOld ->
  homepagesByName (renamed d id n newKey dropOld) !! k = homepagesByName d !! k.
Proof.
  intros Hne Hdrop. simpl. destruct dropOld as [oldKey|].
  - rewrite lookup_delete_ne by congruence. now rewrite lookup_insert_ne.
  - now rewrite lookup_insert_ne.
Qed.

(** X8: a create touches the home page of the new id and the claim of its
    key; a rename touches the home page it renames, the claim of the new
    key and the claim of the previous key.  Every other document of the
    store is left as it was, a rename keeps the creation time of the home
    page, and it does not change the saved id. *)
Theorem handlers_touch_their_documents_only `{Lowercase}
    rule autoId now text homePageId homePageKey w :
  let c := world (createByName rule autoId now text w) in
  let r := world (saveRename rule now homePageId text homePageKey w) in
  (forall id', id' <> autoId -> homepages (db c) !! id' = homepages (db w) !! id')
  /\ (forall k, k <> toNameKey text ->
        homepagesByName (db c) !! k = homepagesByName (db w) !! k)
  /\ (forall id', Some id' <> homePageId ->
        homepages (db r) !! id' = homepages (db w) !! id')
  /\ (forall k, k <> toNameKey text -> Some k <> homePageKey ->
        homepagesByName (db r) !! k = homepagesByName (db w) !! k)
  /\ (forall id', (homepages (db r) !! id') ≫= createdAt
                  = (homepages (db w) !! id') ≫= createdAt)
  /\ saved r = saved w.
Proof.
  intros c r.
  assert (Hc : c = w \/
               db c = {| homepages :=
                           <[autoId := {| createdAt := Some now;
                                          name := Some (trim text);
                                          nameKey := Some (toNameKey text) |}]>
                             (homepages (db w));
                         homepagesByName :=
                           <[toNameKey text := autoId]> (homepagesByName (db w)) |}).
  { unfold c. destruct (createByName_cases rule autoId now text w) as [[Hk Hfree]|[Hw _]];
      [right|now left].
    now rewrite createByName_free by assumption. }
  split; [|split].
  - intros id' Hne. destruct Hc as [Hc|Hc]; rewrite Hc; [reflexivity|].
    simpl. now rewrite lookup_insert_ne.
  - intros k Hne. destruct Hc as [Hc|Hc]; rewrite Hc; [reflexivity|].
    simpl. now rewrite lookup_insert_ne.
  - unfold r.
    destruct (saveRename_cases rule now homePageId text homePageKey w)
      as [[Hw _]|(_ & Hs & _ & _ & id & dropOld & Hid & _ & Hdb & Hdrop)].
    + rewrite Hw. repeat split.
    + rewrite Hdb, Hs. split; [|split; [|split; [|reflexivity]]].
      * intros id' Hne. apply renamed_other_homepage. congruence.
      * intros k Hne Hold. apply renamed_other_claim; [assumption|].
        destruct dropOld as [oldKey|]; [|discriminate].
        destruct Hdrop as [-> _]. exact Hold.
      * intros id'. simpl. destruct (decide (id' = id)) as [->|Hne].
        -- rewrite lookup_insert_eq. reflexivity.
        -- now rewrite lookup_insert_ne.
Qed.

Lemma handlers_touch_their_documents_only_witness :
  homepages (db twoHomes) !! groupA = homepages (db magnusHome) !! groupA
  /\ homepagesByName (db twoHomes) !! str "magnus-home"
     = homepagesByName (db magnusHome) !! str "magnus-home".
Proof.
  destruct (handlers_touch_their_documents_only ReadsFirst groupB 2%N (str "Summer Hut")
              None None magnusHome) as (Hhp & Hclaim & _).
  split.
  - apply (Hhp groupA). vm_compute. discriminate.
  - apply (Hclaim (str "magnus-home")). vm_compute. discriminate.
Defined.

(** *** What the store keeps *)

(** X9: a create with an id that is new to the store keeps the claims
    consistent (every claim names a home page that exists and carries
    the key of the claim) and keeps every key the key of its name. *)
Theorem createByName_keeps_invariants `{Lowercase} rule autoId now createName w :
  claimsConsistent (db w) -> keysFromNames (db w) ->
  homepages (db w) !! autoId = None ->
  let w1 := world (createByName rule autoId now createName w) in
  claimsConsistent (db w1) /\ keysFromNames (db w1).
Proof.
  intros Hc Hn Hnew w1. unfold w1.
  destruct (createByName_cases rule autoId now createName w) as [[Hk Hfree]|[Hw _]];
    [|rewrite Hw; auto].
  rewrite createByName_free by assumption. simpl. split.
  - intros key id Hl. simpl in *.
    destruct (decide (key = toNameKey createName)) as [->|Hne].
    + rewrite lookup_insert_eq in Hl. injection Hl as <-.
      eexists. split; [apply lookup_insert_eq|reflexivity].
    + rewrite lookup_insert_ne in Hl by congruence.
      destruct (Hc key id Hl) as (hp & Hhp & Hkey).
      exists hp. split; [|assumption].
      rewrite lookup_insert_ne; [assumption|]. intros ->. congruence.
  - intros id hp Hl. simpl in *.
    destruct (decide (id = autoId)) as [->|Hne].
    + rewrite lookup_insert_eq in Hl. injection Hl as <-. simpl.
      exists (trim createName).
      rewrite toNameKey_trim, trim_idem. auto.
    + rewrite lookup_insert_ne in Hl by congruence. eauto.
Qed.

Lemma createByName_keeps_invariants_witness :
  claimsConsistent (db magnusHome) /\ keysFromNames (db magnusHome).
Proof.
  apply (createByName_keeps_invariants ReadsFirst groupA 1%N (str "Magnus Home") nowhere).
  - intros key id Hl. simpl in Hl. rewrite lookup_empty in Hl. discriminate.
  - intros id hp Hl. simpl in Hl. rewrite lookup_empty in Hl. discriminate.
  - reflexivity.
Defined.

(** X10: a rename from a screen whose key is the key the store holds for the
    home page keeps both invariants, whatever the rename does. *)
Theorem saveRename_keeps_invariants `{Lowercase} rule now st w id hp :
  claimsConsistent (db w) -> keysFromNames (db w) ->
  HomeScreen.homePageId st = Some id ->
  homepages (db w) !! id = Some hp ->
  HomeScreen.homePageKey st = nameKey hp ->
  let w1 := world (HomeScreen.save rule now st w) in
  claimsConsistent (db w1) /\ keysFromNames (db w1).
Proof.
  intros Hc Hn Hst Hhp Hkey w1. unfold w1, HomeScreen.save.
  destruct (saveRename_cases rule now (HomeScreen.homePageId st)
              (HomeScreen.renameText st) (HomeScreen.homePageKey st) w)
    as [[Hw _]|(_ & _ & Hk & _ & id' & dropOld & Hid & _ & Hdb & Hdrop)];
    [rewrite Hw; auto|].
  rewrite Hst in Hid. injection Hid as <-.
  rewrite Hdb. clear Hdb.
  destruct (Hn id hp Hhp) as (n0 & Hn0 & Hk0 & Hne0 & _).
  set (newKey := toNameKey (HomeScreen.renameText st)) in *.
  rewrite Hkey, Hk0 in Hdrop.
  split.
  - intros key i Hl.
    assert (Hcases : (key = newKey /\ i = id)
                     \/ (key <> newKey /\ Some key <> dropOld
                         /\ homepagesByName (db w) !! key = Some i)).
    { simpl in Hl. destruct dropOld as [oldKey|].
      - destruct (decide (key = oldKey)) as [->|Hko];
          [rewrite lookup_delete_eq in Hl; discriminate|].
        rewrite lookup_delete_ne in Hl by congruence.
        destruct (decide (key = newKey)) as [->|Hkn].
        + rewrite lookup_insert_eq in Hl. left. split; congruence.
        + rewrite lookup_insert_ne in Hl by congruence. right.
          repeat split; congruence.
      - destruct (decide (key = newKey)) as [->|Hkn].
        + rewrite lookup_insert_eq in Hl. left. split; congruence.
        + rewrite lookup_insert_ne in Hl by congruence. right.
          repeat split; [assumption|discriminate|assumption]. }
    destruct Hcases as [[-> ->]|(Hkn & Hkd & Hold)].
    + eexists. split; [apply lookup_insert_eq|reflexivity].
    + destruct (Hc key i Hold) as (hpi & Hhpi & Hkeyi).
      exists hpi. split; [|assumption].
      rewrite renamed_other_homepage; [assumption|].
      intros ->. rewrite Hhp in Hhpi. injection Hhpi as <-.
      rewrite Hk0 in Hkeyi. injection Hkeyi as Hkeyi.
      destruct dropOld as [oldKey|].
      * destruct Hdrop as (Ho & _). congruence.
      * destruct Hdrop as [Hguard|(oldKey & Ho & _ & Hnot)].
        -- simpl in Hguard. apply truthy_true in Hne0. rewrite Hne0 in Hguard.
           simpl in Hguard. apply negb_false_iff, bool_decide_eq_true in Hguard.
           congruence.
        -- injection Ho as Ho. congruence.
  - intros i hpi Hl. simpl in Hl.
    destruct (decide (i = id)) as [->|Hne].
    + rewrite lookup_insert_eq in Hl. injection Hl as <-. simpl.
      exists (trim (HomeScreen.renameText st)).
      rewrite toNameKey_trim, trim_idem. auto.
    + rewrite lookup_insert_ne in Hl by congruence. eauto.
Qed.

Lemma solo_claimsConsistent : claimsConsistent (db solo).
Proof.
  intros key id Hl. simpl in Hl. apply lookup_singleton_Some in Hl.
  destruct Hl as [<- <-]. eexists. split; [apply lookup_singleton_eq|reflexivity].
Qed.

Lemma solo_keysFromNames : keysFromNames (db solo).
Proof.
  intros id hp Hl. simpl in Hl. apply lookup_singleton_Some in Hl.
  destruct Hl as [<- <-]. exists (str "Magnus Home"). simpl.
  split; [reflexivity|]. split; [vm_compute; reflexivity|].
  split; [vm_compute; discriminate|vm_compute; reflexivity].
Qed.

Lemma saveRename_keeps_invariants_witness :
  let w1 := world (HomeScreen.save AsWritten 5%N (soloScreen (str "Casa Magnus")) solo) in
  claimsConsistent (db w1) /\ keysFromNames (db w1).
Proof.
  apply (saveRename_keeps_invariants AsWritten 5%N (soloScreen (str "Casa Magnus")) solo
           groupA {| createdAt := Some 1%N; name := Some (str "Magnus Home");
                     nameKey := Some (str "magnus-home") |}).
  - exact solo_claimsConsistent.
  - exact solo_keysFromNames.
  - reflexivity.
  - apply lookup_singleton_eq.
  - reflexivity.
Defined.

(** *** The screens *)

(** X11: saving the name the screen received from the store, unedited, is
    saved and changes nothing. *)
Theorem save_unedited_changes_nothing `{Lowercase} rule now st0 w id hp n :
  HomeScreen.homePageId st0 = Some id -> id <> [] ->
  homepages (db w) !! id = Some hp ->
  name hp = Some n -> nameKey hp = Some (toNameKey n) ->
  toNameKey n <> [] -> trim n = n ->
  homepagesByName (db w) !! toNameKey n = Some id ->
  let st := fst (fst (HomeScreen.onSnapshot st0 w)) in
  let r := HomeScreen.save rule now st w in
  outcome r = HomeScreen.savedAlert /\ world r = w.
Proof.
  intros Hst Hid Hhp Hname Hkey Hk Htrim Hclaim st r.
  assert (Hn : n <> []) by (intros ->; now rewrite toNameKey_nil in Hk).
  assert (Hst' : st = {| HomeScreen.homePageId := Some id;
                         HomeScreen.homePageName := Some n;
                         HomeScreen.homePageKey := Some (toNameKey n);
                         HomeScreen.renameText := n |}).
  { unfold st, HomeScreen.onSnapshot. rewrite Hst.
    destruct id as [|c i]; [contradiction|]. rewrite Hhp. simpl.
    rewrite Hname, Hkey. destruct n; [contradiction|reflexivity]. }
  unfold r, HomeScreen.save. rewrite Hst'.
  cbn [HomeScreen.homePageId HomeScreen.renameText HomeScreen.homePageKey].
  rewrite HomeTabFacts.saveRename_plain; try assumption.
  - simpl. split; [reflexivity|].
    rewrite Htrim, Hhp. simpl.
    rewrite !insert_id; [now destruct w as [[] ?]|assumption|].
    rewrite Hhp. destruct hp as [c nm nk]. simpl in *. congruence.
  - now right.
  - simpl. rewrite bool_decide_eq_true_2 by reflexivity. apply andb_false_r.
Qed.

Lemma save_unedited_changes_nothing_witness :
  let st := fst (fst (HomeScreen.onSnapshot (soloScreen []) solo)) in
  outcome (HomeScreen.save ReadsFirst 5%N st solo) = HomeScreen.savedAlert
  /\ world (HomeScreen.save ReadsFirst 5%N st solo) = solo.
Proof.
  apply (save_unedited_changes_nothing ReadsFirst 5%N (soloScreen []) solo groupA
           {| createdAt := Some 1%N; name := Some (str "Magnus Home");
              nameKey := Some (str "magnus-home") |} (str "Magnus Home")).
  - reflexivity.
  - vm_compute. discriminate.
  - apply lookup_singleton_eq.
  - reflexivity.
  - vm_compute. reflexivity.
  - vm_compute. discriminate.
  - vm_compute. reflexivity.
  - vm_compute. reflexivity.
Defined.

(** X12: the start screen never changes the store.  It goes on to the home
    tabs only with a saved id whose home page exists, and then leaves the
    device as it is; where it stays, no usable id is left on the device;
    started again, it does the same. *)
Theorem boot_spec w :
  db (fst (boot w)) = db w
  /\ (snd (boot w) = Home ->
      fst (boot w) = w
      /\ exists id, saved w = Some id /\ id <> []
                    /\ is_Some (homepages (db w) !! id))
  /\ (snd (boot w) = Start -> truthyOpt (saved (fst (boot w))) = false)
  /\ boot (fst (boot w)) = boot w.
Proof.
  unfold boot. destruct w as [d [[|c i]|]]; simpl; try (repeat split; congruence).
  destruct (homepages d !! (c :: i)) as [hp|] eqn:Hhp; simpl.
  - rewrite Hhp. repeat split; try congruence.
    exists (c :: i). repeat split; [discriminate|eauto].
  - repeat split; congruence.
Qed.

Lemma boot_spec_witness :
  boot magnusHome = (magnusHome, Home)
  /\ truthyOpt (saved (fst (boot stale))) = false.
Proof.
  split; [vm_compute; reflexivity|].
  destruct (boot_spec stale) as (_ & _ & Hstart & _).
  apply Hstart. vm_compute. reflexivity.
Defined.

(** X13: on a consistent store, a create or a join that enters a home page
    leaves an id on the device with which the start screen goes on to the
    home tabs. *)
Theorem boot_after_entering `{Lowercase} rule autoId now text w id :
  claimsConsistent (db w) -> id <> [] ->
  (outcome (createByName rule autoId now text w) = Entered id ->
   boot (world (createByName rule autoId now text w))
   = (world (createByName rule autoId now text w), Home))
  /\ (outcome (joinByName text w) = Entered id ->
      boot (world (joinByName text w)) = (world (joinByName text w), Home)).
Proof.
  intros Hc Hid. split.
  - destruct (createByName_cases rule autoId now text w)
      as [[Hk Hfree]|(_ & title & message & Ho & _)]; [|rewrite Ho; discriminate].
    rewrite createByName_free by assumption. simpl. intros Ho. injection Ho as ->.
    unfold boot. simpl. destruct id as [|c i]; [contradiction|].
    now rewrite lookup_insert_eq.
  - unfold joinByName.
    destruct (truthy (toNameKey text)); simpl; [|discriminate].
    destruct (homepagesByName (db w) !! toNameKey text) as [g|] eqn:Hg; simpl;
      [|discriminate].
    intros Ho. injection Ho as ->.
    destruct (Hc _ _ Hg) as (hp & Hhp & _).
    unfold boot. simpl. destruct id as [|c i]; [contradiction|].
    now rewrite Hhp.
Qed.

Lemma boot_after_entering_witness :
  boot (world (joinByName (str "magnus home") solo))
  = (world (joinByName (str "magnus home") solo), Home).
Proof.
  destruct (boot_after_entering ReadsFirst groupB 2%N (str "magnus home") solo groupA)
    as [_ Hjoin].
  - exact solo_claimsConsistent.
  - vm_compute. discriminate.
  - apply Hjoin. vm_compute. reflexivity.
Defined.

(** X14: the listener of the home tab never changes the store.  When the home
    page is gone it removes the saved id and goes back to the start, and
    the start screen then stays; when the home page is there, the screen
    takes over its name and key. *)
Theorem onSnapshot_spec st w id :
  HomeScreen.homePageId st = Some id -> id <> [] ->
  let st' := fst (fst (HomeScreen.onSnapshot st w)) in
  let w' := snd (fst (HomeScreen.onSnapshot st w)) in
  db w' = db w
  /\ (homepages (db w) !! id = None ->
      saved w' = None /\ st' = st
      /\ (exists a, snd (HomeScreen.onSnapshot st w) = HomeScreen.BackToStart (Some a))
      /\ boot w' = (w', Start))
  /\ (forall hp, homepages (db w) !! id = Some hp ->
      w' = w /\ snd (HomeScreen.onSnapshot st w) = HomeScreen.Stays
      /\ HomeScreen.homePageId st' = Some id
      /\ HomeScreen.homePageName st' = name hp
      /\ HomeScreen.homePageKey st' = nameKey hp).
Proof.
  intros Hst Hid st' w'. unfold st', w', HomeScreen.onSnapshot. rewrite Hst.
  destruct id as [|c i]; [contradiction|].
  destruct (homepages (db w) !! (c :: i)) as [hp|] eqn:Hhp; simpl.
  - split; [reflexivity|]. split; [discriminate|].
    intros hp' Hhp'. injection Hhp' as <-. repeat split; auto.
  - split; [reflexivity|]. split; [|discriminate].
    intros _. repeat split; eauto.
Qed.

Lemma onSnapshot_spec_witness :
  saved (snd (fst (HomeScreen.onSnapshot (soloScreen []) stale))) = None
  /\ HomeScreen.homePageKey (fst (fst (HomeScreen.onSnapshot (soloScreen []) solo)))
     = Some (str "magnus-home").
Proof.
  split.
  - destruct (onSnapshot_spec (soloScreen []) stale groupA) as (_ & Hgone & _);
      [reflexivity|vm_compute; discriminate|].
    apply Hgone. reflexivity.
  - destruct (onSnapshot_spec (soloScreen []) solo groupA) as (_ & _ & Hthere);
      [reflexivity|vm_compute; discriminate|].
    destruct (Hthere {| createdAt := Some 1%N; name := Some (str "Magnus Home");
                        nameKey := Some (str "magnus-home") |})
      as (_ & _ & _ & _ & Hkey); [apply lookup_singleton_eq|exact Hkey].
Defined.

(** A switch clears the state of the screen and the saved id and leaves
    the store alone; the start screen then stays, and the home tab, if it
    is opened again, goes back to the start. *)
Theorem switchHomePage_spec st w :
  let st' := fst (fst (HomeScreen.switchHomePage st w)) in
  let w' := snd (fst (HomeScreen.switchHomePage st w)) in
  st' = HomeScreen.initial /\ db w' = db w /\ saved w' = None
  /\ boot w' = (w', Start)
  /\ HomeScreen.load w' = (HomeScreen.initial, HomeScreen.BackToStart None).
Proof. repeat split. Qed.

End ProtocolFacts.

(** ** The shopping list *)

Module ShoppingMore.
Import JS Firestore ShoppingTab ShoppingOps Scenario Examples TxFacts.
Local Open Scope string_scope.

Lemma shoppingItems_insert ls hp items hp' :
  shoppingItems (<[hp := items]> ls) hp' =
  if decide (hp = hp') then items else shoppingItems ls hp'.
Proof.
  unfold shoppingItems. rewrite lookup_insert. now case_decide.
Qed.

Lemma shoppingItems_insert_eq ls hp items : shoppingItems (<[hp := items]> ls) hp = items.
Proof. rewrite shoppingItems_insert. now case_decide. Qed.

(** [addItem] past its guard. *)
Lemma addItem_unfold `{Lowercase} autoId now hp text ls :
  hp <> [] -> trim text <> [] ->
  addItem autoId now (Some hp) text ls =
  match dupQuery (toLowerCase (trim text)) (shoppingItems ls hp) with
  | _ :: _ =>
      (ls, AlreadyOnList
             (quote :: trim text ++ quote :: str " is already in this HomePage.")%list)
  | [] =>
      (<[hp := {| id := autoId; itemName := trim text;
                  nameLower := toLowerCase (trim text); purchased := false;
                  itemCreatedAt := Some now |} :: shoppingItems ls hp]> ls,
       Added)
  end.
Proof.
  intros Hid Hn. unfold addItem. apply truthy_true in Hn, Hid. simpl.
  rewrite Hn, Hid. reflexivity.
Qed.

Lemma dupQuery_cons normalized items d t :
  dupQuery normalized items = d :: t -> d ∈ items /\ nameLower d = normalized.
Proof.
  unfold dupQuery. intros Hq.
  destruct (filter (fun i => nameLower i = normalized) items) as [|e u] eqn:Hf;
    [discriminate|].
  simpl in Hq. injection Hq as -> _.
  assert (Hin : d ∈ filter (fun i => nameLower i = normalized) items)
    by (rewrite Hf; left).
  apply list_elem_of_filter in Hin. tauto.
Qed.

(** [addItem] changes nothing, or puts one new item in front of the list
    of its home page, with a [nameLower] no item of the list has. *)
Lemma addItem_cases `{Lowercase} autoId now homePageId text ls :
  fst (addItem autoId now homePageId text ls) = ls
  \/ exists hp it,
       homePageId = Some hp
       /\ fst (addItem autoId now homePageId text ls)
          = <[hp := it :: shoppingItems ls hp]> ls
       /\ id it = autoId /\ itemName it = trim text
       /\ nameLower it = toLowerCase (itemName it) /\ purchased it = false
       /\ forall i, i ∈ shoppingItems ls hp -> nameLower i <> nameLower it.
Proof.
  destruct homePageId as [[|c hp]|];
    [left; unfold addItem; simpl; now rewrite orb_true_r|
    |left; unfold addItem; simpl; now rewrite orb_true_r].
  destruct (trim text) as [|c' n] eqn:Hn; [left; unfold addItem; now rewrite Hn|].
  rewrite addItem_unfold by (rewrite ?Hn; discriminate). rewrite Hn.
  destruct (dupQuery _ _) eqn:Hq; [|now left].
  right. do 2 eexists. split; [reflexivity|]. split; [reflexivity|].
  simpl. repeat split. now apply ShoppingFacts.dupQuery_nil.
Qed.

(** X15: if no two items of a list have the same [nameLower], an add keeps it
    so; and if every [nameLower] is the lowercase of its name, an add
    keeps that too. *)
Theorem addItem_keeps_names_unique `{Lowercase} autoId now homePageId text ls hp :
  let items := shoppingItems ls hp in
  let items' := shoppingItems (fst (addItem autoId now homePageId text ls)) hp in
  (NoDup (map nameLower items) -> NoDup (map nameLower items'))
  /\ (Forall (fun i => nameLower i = toLowerCase (itemName i)) items ->
      Forall (fun i => nameLower i = toLowerCase (itemName i)) items').
Proof.
  intros items items'. unfold items'.
  destruct (addItem_cases autoId now homePageId text ls)
    as [->|(hp0 & it & _ & -> & _ & _ & Hlow & _ & Hnew)]; [auto|].
  rewrite shoppingItems_insert. case_decide as Hhp; [subst hp0|auto].
  split.
  - intros Hnd. simpl. apply NoDup_cons. split; [|assumption].
    intros Hin. apply list_elem_of_fmap in Hin. destruct Hin as (i & Hi & Hin).
    apply (Hnew i Hin). congruence.
  - intros Hall. apply Forall_cons. auto.
Qed.

Lemma addItem_keeps_names_unique_witness :
  NoDup (map nameLower
           (shoppingItems (fst (addItem (str "i2") 4%N (Some groupA) (str " Bread ") pantry))
              groupA)).
Proof.
  apply (addItem_keeps_names_unique (str "i2") 4%N (Some groupA) (str " Bread ") pantry groupA).
  change (shoppingItems pantry groupA) with [milk]. simpl.
  apply NoDup_singleton.
Defined.

(** X16: after an add of a name, an add of a text with the same lowercase
    trimmed name finds it on the list and changes nothing. *)
Theorem addItem_again_is_rejected `{Lowercase} autoId now autoId' now' hp text text' ls :
  hp <> [] -> trim text <> [] -> trim text' <> [] ->
  toLowerCase (trim text') = toLowerCase (trim text) ->
  let ls1 := fst (addItem autoId now (Some hp) text ls) in
  fst (addItem autoId' now' (Some hp) text' ls1) = ls1
  /\ exists message, snd (addItem autoId' now' (Some hp) text' ls1) = AlreadyOnList message.
Proof.
  intros Hid Hn Hn' Hsame ls1.
  assert (Hthere : exists i, i ∈ shoppingItems ls1 hp
                             /\ nameLower i = toLowerCase (trim text)).
  { unfold ls1. rewrite addItem_unfold by assumption.
    destruct (dupQuery _ _) as [|d t] eqn:Hq; simpl.
    - rewrite shoppingItems_insert_eq. eexists. split; [left|reflexivity].
    - apply dupQuery_cons in Hq. eauto. }
  rewrite addItem_unfold by assumption. rewrite Hsame.
  destruct (dupQuery _ _) as [|d t] eqn:Hq; simpl; [|eauto].
  destruct Hthere as (i & Hi & Hl).
  destruct (proj1 (ShoppingFacts.dupQuery_nil _ _) Hq i Hi Hl).
Qed.

Lemma addItem_again_is_rejected_witness :
  let ls1 := fst (addItem (str "i1") 3%N (Some groupA) (str "Milk") ∅) in
  fst (addItem (str "i2") 4%N (Some groupA) (str "  MILK ") ls1) = ls1.
Proof.
  apply (addItem_again_is_rejected (str "i1") 3%N (str "i2") 4%N groupA
           (str "Milk") (str "  MILK ") ∅).
  - vm_compute. discriminate.
  - vm_compute. discriminate.
  - vm_compute. discriminate.
  - vm_compute. reflexivity.
Defined.

Lemma filter_all {A} (P : A -> Prop) `{!forall x, Decision (P x)} (l : list A) :
  (forall x, x ∈ l -> P x) -> filter P l = l.
Proof.
  induction l as [|x r IH]; [reflexivity|]. intros Hall.
  rewrite filter_cons_True by (apply Hall; left).
  f_equal. apply IH. intros y Hy. apply Hall. now right.
Qed.

Lemma filter_agree {A} (P Q : A -> Prop)
    `{!forall x, Decision (P x)} `{!forall x, Decision (Q x)} (l : list A) :
  (forall x, x ∈ l -> (P x <-> Q x)) -> filter P l = filter Q l.
Proof.
  induction l as [|x r IH]; [reflexivity|]. intros Hall.
  assert (Hr : filter P r = filter Q r) by (apply IH; intros y Hy; apply Hall; now right).
  rewrite !filter_cons, Hr.
  pose proof (Hall x (list_elem_of_here _ _)) as Hx.
  destruct (decide (P x)) as [Hp|Hp], (decide (Q x)) as [Hq|Hq]; try reflexivity;
    tauto.
Qed.

(** X17: a remove takes the item with the given id off the list of the home
    page and nothing else: the other items stay, in their order, and the
    other lists are untouched; removing an id that is not on the list
    changes no list. *)
Theorem removeItem_spec hp target ls :
  hp <> [] ->
  let items := shoppingItems ls hp in
  let ls' := removeItem (Some hp) target ls in
  (forall i, i ∈ shoppingItems ls' hp <-> i ∈ items /\ id i <> target)
  /\ shoppingItems ls' hp `sublist_of` items
  /\ (forall other, other <> hp -> ls' !! other = ls !! other)
  /\ ((forall i, i ∈ items -> id i <> target) -> shoppingItems ls' hp = items).
Proof.
  intros Hid items ls'. unfold ls', removeItem.
  destruct hp as [|c hp]; [contradiction|].
  rewrite shoppingItems_insert_eq. fold items. split; [|split; [|split]].
  - intros i. rewrite list_elem_of_filter. tauto.
  - apply sublist_filter.
  - intros other Hne. now rewrite lookup_insert_ne.
  - intros Hnone. now apply filter_all.
Qed.

Lemma removeItem_spec_witness :
  shoppingItems (removeItem (Some groupA) (str "i1") pantry) groupA = []
  /\ shoppingItems (removeItem (Some groupA) (str "i9") pantry) groupA = [milk].
Proof.
  split; [vm_compute; reflexivity|].
  destruct (removeItem_spec groupA (str "i9") pantry) as (_ & _ & _ & Hkeep).
  - vm_compute. discriminate.
  - apply Hkeep. intros i Hi. change (shoppingItems pantry groupA) with [milk] in Hi.
    apply list_elem_of_singleton in Hi. subst i. vm_compute. discriminate.
Defined.

(** X18: an add with an id that is new to the list, followed by the removal of
    that id, gives the list back, whether the add went through or not. *)
Theorem remove_after_add `{Lowercase} autoId now hp text ls :
  hp <> [] ->
  (forall i, i ∈ shoppingItems ls hp -> id i <> autoId) ->
  shoppingItems (removeItem (Some hp) autoId (fst (addItem autoId now (Some hp) text ls))) hp
  = shoppingItems ls hp.
Proof.
  intros Hid Hnew. unfold removeItem.
  destruct hp as [|c hp]; [contradiction|].
  rewrite shoppingItems_insert_eq.
  destruct (addItem_cases autoId now (Some (c :: hp)) text ls)
    as [->|(hp0 & it & Hhp & -> & Hit & _)].
  - now apply filter_all.
  - injection Hhp as <-. rewrite shoppingItems_insert_eq.
    rewrite filter_cons_False by (intros Hne; apply Hne; exact Hit).
    now apply filter_all.
Qed.

Lemma remove_after_add_witness :
  shoppingItems
    (removeItem (Some groupA) (str "i2")
       (fst (addItem (str "i2") 4%N (Some groupA) (str "Bread") pantry))) groupA
  = [milk].
Proof.
  apply (remove_after_add (str "i2") 4%N groupA (str "Bread") pantry).
  - vm_compute. discriminate.
  - intros i Hi. change (shoppingItems pantry groupA) with [milk] in Hi.
    apply list_elem_of_singleton in Hi. subst i. vm_compute. discriminate.
Defined.

Lemma hasId_true target items :
  hasId target items = true <-> exists i, i ∈ items /\ id i = target.
Proof.
  unfold hasId. induction items as [|x r IH]; simpl.
  - split; [discriminate|]. intros (i & Hi & _). inversion Hi.
  - rewrite orb_true_iff, IH, bool_decide_eq_true. split.
    + intros [Hx|(i & Hi & Hid)]; [exists x; split; [left|assumption]|].
      exists i. split; [now right|assumption].
    + intros (i & Hi & Hid). apply elem_of_cons in Hi. destruct Hi as [->|Hi]; eauto.
Qed.

Lemma togglePurchased_unfold hp target current ls :
  hp <> [] ->
  togglePurchased (Some hp) target current ls =
  if hasId target (shoppingItems ls hp)
  then (<[hp := map (toggled target current) (shoppingItems ls hp)]> ls, None)
  else (ls, Some "Update failed").
Proof. intros Hid. destruct hp; [contradiction|reflexivity]. Qed.

Lemma toggled_id target current i : id (toggled target current i) = id i.
Proof. unfold toggled. now case_bool_decide. Qed.

(** X19: a toggle writes the opposite of the value it is given to the item
    with the given id, and nothing else: ids, names and the order of the
    list stay, as do the other items.  On an id that is not on the list
    the update fails and nothing changes. *)
Theorem togglePurchased_spec hp target current ls :
  hp <> [] ->
  let items := shoppingItems ls hp in
  let r := togglePurchased (Some hp) target current ls in
  let items' := shoppingItems (fst r) hp in
  ((forall i, i ∈ items -> id i <> target) -> r = (ls, Some "Update failed"))
  /\ ((exists i, i ∈ items /\ id i = target) ->
      snd r = None
      /\ forall i, i ∈ items' -> id i = target -> purchased i = negb current)
  /\ map id items' = map id items
  /\ map itemName items' = map itemName items
  /\ map nameLower items' = map nameLower items
  /\ (forall i, id i <> target -> (i ∈ items' <-> i ∈ items)).
Proof.
  intros Hid items r items'. unfold items', r.
  rewrite togglePurchased_unfold by assumption. fold items.
  destruct (hasId target items) eqn:Hhas.
  - apply hasId_true in Hhas as Hex. simpl. rewrite shoppingItems_insert_eq.
    split; [intros Hnone; destruct Hex as (i & Hi & Hit); destruct (Hnone i Hi Hit)|].
    assert (Hmap : forall {B} (f : Item -> B),
               (forall b i, f (setPurchased b i) = f i) ->
               map f (map (toggled target current) items) = map f items).
    { intros B f Hf. rewrite map_map. apply map_ext. intros i.
      unfold toggled. case_bool_decide; [apply Hf|reflexivity]. }
    split; [|split; [now apply Hmap|split; [now apply Hmap|split; [now apply Hmap|]]]].
    + intros _. split; [reflexivity|].
      intros i Hi Hit. apply list_elem_of_fmap in Hi. destruct Hi as (j & -> & Hj).
      unfold toggled in *. case_bool_decide as Hjt; [reflexivity|].
      contradiction.
    + intros i Hne. rewrite list_elem_of_fmap. split.
      * intros (j & -> & Hj). unfold toggled in *.
        case_bool_decide as Hjt; [|assumption]. simpl in Hne. contradiction.
      * intros Hi. exists i. split; [|assumption].
        unfold toggled. now rewrite bool_decide_eq_false_2.
  - simpl. fold items.
    split; [reflexivity|].
    split; [intros Hex; apply hasId_true in Hex; congruence|].
    repeat split; tauto.
Qed.

Lemma togglePurchased_spec_witness :
  togglePurchased (Some groupA) (str "i9") false pantry = (pantry, Some "Update failed")
  /\ snd (togglePurchased (Some groupA) (str "i1") false pantry) = None.
Proof.
  destruct (togglePurchased_spec groupA (str "i9") false pantry) as (Hfail & _);
    [vm_compute; discriminate|].
  destruct (togglePurchased_spec groupA (str "i1") false pantry) as (_ & Hok & _);
    [vm_compute; discriminate|].
  split.
  - apply Hfail. intros i Hi. change (shoppingItems pantry groupA) with [milk] in Hi.
    apply list_elem_of_singleton in Hi. subst i. vm_compute. discriminate.
  - apply Hok. exists milk. split; [|reflexivity].
    change (shoppingItems pantry groupA) with [milk]. left.
Defined.

(** X20: a toggle from the value the item has, followed by a toggle from the
    value it has then, gives the list back. *)
Theorem togglePurchased_twice hp target b ls :
  hp <> [] ->
  (forall i, i ∈ shoppingItems ls hp -> id i = target -> purchased i = b) ->
  shoppingItems
    (fst (togglePurchased (Some hp) target (negb b)
            (fst (togglePurchased (Some hp) target b ls)))) hp
  = shoppingItems ls hp.
Proof.
  intros Hid Hb. rewrite (togglePurchased_unfold hp target b) by assumption.
  destruct (hasId target (shoppingItems ls hp)) eqn:Hhas; cbn [fst].
  - rewrite togglePurchased_unfold by assumption.
    rewrite shoppingItems_insert_eq.
    assert (Hhas' : hasId target (map (toggled target b) (shoppingItems ls hp)) = true).
    { apply hasId_true. apply hasId_true in Hhas. destruct Hhas as (i & Hi & Hit).
      exists (toggled target b i). split; [|now rewrite toggled_id].
      apply list_elem_of_fmap. eauto. }
    rewrite Hhas'. cbn [fst]. rewrite shoppingItems_insert_eq.
    rewrite map_map. rewrite <- (map_id (shoppingItems ls hp)) at 2.
    apply map_ext_in. intros i Hi. apply list_elem_of_In in Hi.
    unfold toggled at 2. case_bool_decide as Hit.
    + unfold toggled. simpl. rewrite bool_decide_eq_true_2 by assumption.
      specialize (Hb i Hi Hit). destruct i as [i n l p c]. simpl in *. subst p.
      unfold setPurchased. simpl. now rewrite negb_involutive.
    + unfold toggled. now rewrite bool_decide_eq_false_2.
  - rewrite togglePurchased_unfold by assumption. rewrite Hhas. reflexivity.
Qed.

Lemma togglePurchased_twice_witness :
  shoppingItems
    (fst (togglePurchased (Some groupA) (str "i1") true
            (fst (togglePurchased (Some groupA) (str "i1") false pantry)))) groupA
  = [milk].
Proof.
  apply (togglePurchased_twice groupA (str "i1") false pantry).
  - vm_compute. discriminate.
  - intros i Hi _. change (shoppingItems pantry groupA) with [milk] in Hi.
    apply list_elem_of_singleton in Hi. subst i. reflexivity.
Defined.

(** *** Clearing the purchased items *)

Local Close Scope string_scope.

Lemma succ_mod_450 c :
  (S c mod 450 = 0 /\ c mod 450 = 449 /\ S c / 450 = c / 450 + 1)
  \/ (S c mod 450 = c mod 450 + 1 /\ S c mod 450 <> 0 /\ S c / 450 = c / 450).
Proof.
  pose proof (Nat.div_mod_eq c 450). pose proof (Nat.div_mod_eq (S c) 450).
  pose proof (Nat.mod_upper_bound c 450). pose proof (Nat.mod_upper_bound (S c) 450).
  lia.
Qed.

Lemma clearLoop_cons d rest batch count committed :
  clearLoop (d :: rest) batch count committed =
  if S count mod 450 =? 0
  then clearLoop rest [] (S count) (committed ++ [batch ++ [id d]])
  else clearLoop rest (batch ++ [id d]) (S count) committed.
Proof. reflexivity. Qed.

Lemma clearLoop_spec docs :
  forall batch count committed,
    length batch = count mod 450 ->
    length committed = count / 450 ->
    Forall (fun b => length b = 450) committed ->
    let R := clearLoop docs batch count committed in
    concat (fst R) ++ snd R = concat committed ++ batch ++ map id docs
    /\ Forall (fun b => length b = 450) (fst R)
    /\ length (snd R) = (count + length docs) mod 450
    /\ length (fst R) = (count + length docs) / 450.
Proof.
  induction docs as [|d rest IH]; intros batch count committed Hb Hc Hfull R; subst R.
  - cbn [clearLoop fst snd map length]. rewrite Nat.add_0_r, app_nil_r. auto.
  - rewrite clearLoop_cons. cbn [map length].
    replace (count + S (length rest)) with (S count + length rest) by lia.
    destruct (succ_mod_450 count) as [(Hz & Hm & Hq)|(Hs & Hnz & Hq)].
    + rewrite Hz. cbn [Nat.eqb].
      destruct (IH [] (S count) (committed ++ [batch ++ [id d]])) as (H1 & H2 & H3 & H4).
      * now rewrite Hz.
      * rewrite length_app, Hq. cbn [length]. lia.
      * apply Forall_app. split; [assumption|].
        apply Forall_singleton. rewrite length_app. cbn [length]. lia.
      * split; [|auto]. rewrite H1, concat_app. cbn [concat].
        rewrite app_nil_r, <- !app_assoc. reflexivity.
    + apply Nat.eqb_neq in Hnz as Hnz'. rewrite Hnz'.
      destruct (IH (batch ++ [id d]) (S count) committed) as (H1 & H2 & H3 & H4).
      * rewrite length_app, Hs. cbn [length]. lia.
      * lia.
      * assumption.
      * split; [|auto]. rewrite H1, <- !app_assoc. reflexivity.
Qed.

(** The batches of the loop, with the commit after it, delete the
    documents it is given, each once and in order; every batch but the
    last holds exactly 450 deletions and the last holds the rest. *)
Lemma clearBatches_spec docs :
  concat (clearBatches docs) = map id docs
  /\ length (clearBatches docs) = length docs / 450 + 1
  /\ Forall (fun b => length b <= 450) (clearBatches docs)
  /\ exists full rest,
       clearBatches docs = full ++ [rest]
       /\ Forall (fun b => length b = 450) full
       /\ length rest = length docs mod 450.
Proof.
  unfold clearBatches.
  destruct (clearLoop_spec docs [] 0 []) as (H1 & H2 & H3 & H4);
    [reflexivity|reflexivity|constructor|].
  destruct (clearLoop docs [] 0 []) as [committed batch]. simpl in *.
  split; [rewrite concat_app; simpl; now rewrite app_nil_r|].
  split; [rewrite length_app; simpl; lia|].
  split.
  - apply Forall_app. split.
    + eapply Forall_impl; [exact H2|]. simpl. intros b Hb. lia.
    + apply Forall_singleton. rewrite H3.
      pose proof (Nat.mod_upper_bound (length docs) 450). lia.
  - exists committed, batch. auto.
Qed.

Lemma clearBatches_concat docs : concat (clearBatches docs) = map id docs.
Proof.
  unfold clearBatches.
  destruct (clearLoop_spec docs [] 0 []) as (H1 & _);
    [reflexivity|reflexivity|constructor|].
  destruct (clearLoop docs [] 0 []) as [committed batch]. simpl in *.
  rewrite concat_app. simpl. now rewrite app_nil_r.
Qed.

Lemma foldl_commitBatch batches :
  forall items,
    foldl commitBatch items batches = filter (fun i => id i ∉ concat batches) items.
Proof.
  induction batches as [|b bs IH]; intros items; simpl.
  - symmetry. apply filter_all. intros x _. apply not_elem_of_nil.
  - rewrite IH. unfold commitBatch. rewrite list_filter_filter.
    apply filter_agree. intros x _. rewrite elem_of_app. tauto.
Qed.

Lemma NoDup_map_eq {A B} (f : A -> B) (l : list A) x y :
  NoDup (map f l) -> x ∈ l -> y ∈ l -> f x = f y -> x = y.
Proof.
  induction l as [|z r IH]; intros Hnd Hx Hy Hf; [inversion Hx|].
  simpl in Hnd. apply NoDup_cons in Hnd. destruct Hnd as [Hz Hr].
  apply elem_of_cons in Hx, Hy.
  destruct Hx as [->|Hx], Hy as [->|Hy]; auto.
  - destruct Hz. rewrite Hf. apply list_elem_of_fmap. eauto.
  - destruct Hz. rewrite <- Hf. apply list_elem_of_fmap. eauto.
Qed.

(** X22: with nothing purchased on the list, [clearPurchased] says so and
    changes nothing.  Otherwise, on a list whose documents have distinct
    ids, it leaves exactly the items that are not purchased, in their
    order, and touches no other list. *)
Theorem clearPurchased_spec hp ls :
  hp <> [] ->
  let items := shoppingItems ls hp in
  let r := clearPurchased (Some hp) ls in
  ((forall i, i ∈ items -> purchased i = false) -> r = (ls, Some "Nothing to clear"%string))
  /\ ((exists i, i ∈ items /\ purchased i = true) -> NoDup (map id items) ->
      snd r = None
      /\ shoppingItems (fst r) hp = filter (fun i => purchased i = false) items)
  /\ (forall other, other <> hp -> fst r !! other = ls !! other).
Proof.
  intros Hid items r. unfold r, clearPurchased.
  destruct hp as [|c hp]; [contradiction|]. fold items.
  destruct (filter (fun i => purchased i = true) items) as [|d t] eqn:Hf.
  - split; [reflexivity|]. split; [|reflexivity].
    intros (i & Hi & Hp). exfalso.
    assert (Hin : i ∈ filter (fun i => purchased i = true) items)
      by (apply list_elem_of_filter; auto).
    rewrite Hf in Hin. inversion Hin.
  - split; [|split].
    + intros Hnone. exfalso.
      assert (Hin : d ∈ filter (fun i => purchased i = true) items) by (rewrite Hf; left).
      apply list_elem_of_filter in Hin. destruct Hin as [Hp Hin].
      rewrite (Hnone d Hin) in Hp. discriminate.
    + intros _ Hnd. simpl. split; [reflexivity|].
      rewrite shoppingItems_insert_eq, foldl_commitBatch.
      rewrite clearBatches_concat. rewrite <- Hf.
      apply filter_agree. intros x Hx. split.
      * intros Hnot. destruct (purchased x) eqn:Hp; [|reflexivity].
        destruct Hnot. apply list_elem_of_fmap. exists x. split; [reflexivity|].
        apply list_elem_of_filter. auto.
      * intros Hp Hin. apply list_elem_of_fmap in Hin. destruct Hin as (j & Hj & Hin).
        apply list_elem_of_filter in Hin. destruct Hin as [Hpj Hin].
        assert (x = j) by (eapply NoDup_map_eq; eauto). subst j. congruence.
    + intros other Hne. simpl. now rewrite lookup_insert_ne.
Qed.

(** X21: with nothing purchased on the list, [clearPurchased] commits no
    batch.  With n purchased documents, n not zero, it commits
    n / 450 + 1 batches that delete these documents, each once and in the
    order of the query; every batch but the last holds exactly 450
    deletions and the last holds n mod 450, which is none when n is a
    multiple of 450, so no batch holds more than 450.  The list it leaves
    is the list with these batches applied. *)
Theorem clearPurchased_batches hp ls :
  hp <> [] ->
  let items := shoppingItems ls hp in
  let docs := filter (fun i => purchased i = true) items in
  let batches := clearCommits (Some hp) ls in
  (docs = [] -> batches = [])
  /\ (docs <> [] ->
      concat batches = map id docs
      /\ length batches = length docs / 450 + 1
      /\ Forall (fun b => length b <= 450) batches
      /\ exists full rest,
           batches = full ++ [rest]
           /\ Forall (fun b => length b = 450) full
           /\ length rest = length docs mod 450)
  /\ shoppingItems (fst (clearPurchased (Some hp) ls)) hp = foldl commitBatch items batches.
Proof.
  intros Hid items docs batches. unfold batches, clearCommits, clearPurchased.
  destruct hp as [|c hp]; [contradiction|]. fold items. fold docs.
  destruct docs as [|d t] eqn:Hdocs.
  - split; [reflexivity|]. split; [contradiction|reflexivity].
  - split; [discriminate|]. split.
    + intros _. apply clearBatches_spec.
    + simpl. now rewrite shoppingItems_insert_eq.
Qed.

Lemma clearPurchased_batches_witness :
  clearCommits (Some groupA) pantry = []
  /\ concat (clearCommits (Some groupA) basket) = [str "i2"]
  /\ length (clearCommits (Some groupA) basket) = 1.
Proof.
  destruct (clearPurchased_batches groupA pantry) as (Hnone & _ & _);
    [vm_compute; discriminate|].
  destruct (clearPurchased_batches groupA basket) as (_ & Hsome & _);
    [vm_compute; discriminate|].
  split; [apply Hnone; vm_compute; reflexivity|].
  destruct Hsome as (Hc & Hl & _); [vm_compute; discriminate|].
  split; [rewrite Hc; vm_compute; reflexivity|].
  rewrite Hl. vm_compute. reflexivity.
Defined.

Lemma clearPurchased_spec_witness :
  clearPurchased (Some groupA) pantry = (pantry, Some "Nothing to clear"%string)
  /\ shoppingItems (fst (clearPurchased (Some groupA) basket)) groupA = [milk].
Proof.
  destruct (clearPurchased_spec groupA pantry) as (Hnone & _); [vm_compute; discriminate|].
  destruct (clearPurchased_spec groupA basket) as (_ & Hsome & _);
    [vm_compute; discriminate|].
  split.
  - apply Hnone. intros i Hi. change (shoppingItems pantry groupA) with [milk] in Hi.
    apply list_elem_of_singleton in Hi. now subst i.
  - destruct Hsome as [_ Hleft].
    + exists eggs. split; [|reflexivity].
      change (shoppingItems basket groupA) with [eggs; milk]. left.
    + change (shoppingItems basket groupA) with [eggs; milk].
      apply NoDup_cons. split; [|apply NoDup_singleton].
      intros Hin. apply list_elem_of_singleton in Hin. vm_compute in Hin. discriminate.
    + rewrite Hleft. vm_compute. reflexivity.
Defined.

(** *** What the screen shows *)

Section Sorting.
Context {A : Type} (cmp : A -> A -> Z).

Lemma insertSorted_perm x l : insertSorted cmp x l ≡ₚ x :: l.
Proof.
  induction l as [|y r IH]; [reflexivity|]. simpl.
  destruct (cmp x y <=? 0)%Z; [reflexivity|].
  rewrite IH. apply Permutation_swap.
Qed.

Lemma sortWith_perm l : sortWith cmp l ≡ₚ l.
Proof.
  induction l as [|x r IH]; [reflexivity|]. simpl.
  rewrite insertSorted_perm. now rewrite IH.
Qed.
End Sorting.

(** X23: in every mode the screen shows each item of the list once, or, with
    the purchased ones hidden, each item that is not purchased once:
    sorting loses and repeats nothing. *)
Theorem visibleItems_perm localeCompare hidePurchased sortMode items :
  visibleItems localeCompare hidePurchased sortMode items
  ≡ₚ (if hidePurchased then filter (fun i => purchased i = false) items else items).
Proof.
  unfold visibleItems. destruct sortMode; try apply sortWith_perm. reflexivity.
Qed.

Lemma insert_unpurchased x l :
  purchased x = false -> insertSorted byPurchased x l = x :: l.
Proof.
  intros Hx. destruct l as [|y r]; [reflexivity|]. simpl.
  unfold byPurchased. rewrite Hx. destruct (purchased y); reflexivity.
Qed.

Lemma insert_purchased x us ps :
  purchased x = true ->
  Forall (fun i => purchased i = false) us -> Forall (fun i => purchased i = true) ps ->
  insertSorted byPurchased x (us ++ ps) = us ++ x :: ps.
Proof.
  intros Hx Hus Hps. induction Hus as [|u us Hu Hus IH]; simpl.
  - destruct ps as [|y r]; [reflexivity|]. simpl.
    apply Forall_cons in Hps. destruct Hps as [Hy _].
    unfold byPurchased. now rewrite Hx, Hy.
  - unfold byPurchased at 1. rewrite Hx, Hu. simpl. now rewrite IH.
Qed.

Lemma sortWith_byPurchased l :
  sortWith byPurchased l
  = filter (fun i => purchased i = false) l ++ filter (fun i => purchased i = true) l.
Proof.
  induction l as [|x r IH]; [reflexivity|]. simpl. rewrite IH.
  rewrite !filter_cons. destruct (purchased x) eqn:Hx.
  - rewrite decide_False by discriminate. rewrite decide_True by reflexivity.
    apply insert_purchased; [assumption| |];
      apply Forall_forall; intros i Hi; apply list_elem_of_filter in Hi; tauto.
  - rewrite decide_True by reflexivity. rewrite decide_False by discriminate.
    now apply insert_unpurchased.
Qed.

(** X24: in the mode that puts the unpurchased first, the screen shows the
    items that are not purchased, in the order of the list, and after
    them the purchased ones, in the order of the list, unless they are
    hidden. *)
Theorem visibleItems_unpurchased_first localeCompare hidePurchased items :
  visibleItems localeCompare hidePurchased UnpurchasedFirst items
  = filter (fun i => purchased i = false) items
    ++ (if hidePurchased then [] else filter (fun i => purchased i = true) items).
Proof.
  unfold visibleItems. rewrite sortWith_byPurchased. destruct hidePurchased; [|reflexivity].
  rewrite !list_filter_filter. f_equal.
  - apply filter_agree. tauto.
  - induction items as [|x r IH]; [reflexivity|].
    rewrite filter_cons_False; [assumption|]. intros [H1 H2]. congruence.
Qed.

(** X25: the sort button goes from newest to alpha, from alpha to
    unpurchased-first and from unpurchased-first to newest, and stores
    the name of the mode it goes to; so it never stays and is back after
    three presses.  The mode it stores is the mode the screen loads at
    its next start; a stored value that is none of the three names, or no
    stored value, loads as the mode that puts the unpurchased first. *)
Theorem sortMode_roundtrip m :
  nextSort Newest = (Alpha, "alpha"%string)
  /\ nextSort Alpha = (UnpurchasedFirst, "unpurchased-first"%string)
  /\ nextSort UnpurchasedFirst = (Newest, "newest"%string)
  /\ loadSort (Some (snd (nextSort m))) = fst (nextSort m)
  /\ loadSort (Some (sortModeName m)) = m
  /\ fst (nextSort m) <> m
  /\ fst (nextSort (fst (nextSort (fst (nextSort m))))) = m
  /\ loadSort None = UnpurchasedFirst
  /\ forall s, (forall m', s <> sortModeName m') -> loadSort (Some s) = UnpurchasedFirst.
Proof.
  do 3 (split; [reflexivity|]).
  split; [now destruct m|]. split; [now destruct m|].
  split; [now destruct m|]. split; [now destruct m|]. split; [reflexivity|].
  intros s Hs. unfold loadSort.
  pose proof (Hs Newest) as Hn. pose proof (Hs Alpha) as Ha. simpl in Hn, Ha.
  repeat case_decide; try contradiction; reflexivity.
Qed.

Lemma sortMode_roundtrip_witness : loadSort (Some "by-price"%string) = UnpurchasedFirst.
Proof.
  destruct (sortMode_roundtrip Newest) as (_ & _ & _ & _ & _ & _ & _ & _ & Hother).
  apply Hother. intros []; discriminate.
Defined.

End ShoppingMore.

(** ** The message board *)

Module MessagesFacts.
Import JS Firestore Messages Scenario Examples JSFacts TxFacts.

Lemma clamp_take s max : clamp s max = take max s.
Proof.
  unfold clamp, slice0. destruct (max <? length s) eqn:Hlt; [reflexivity|].
  apply Nat.ltb_ge in Hlt. symmetry. now apply take_ge.
Qed.

Lemma clamp_length s max : length (clamp s max) <= max.
Proof. rewrite clamp_take, length_take. lia. Qed.

Lemma clamp_small s max : length s <= max -> clamp s max = s.
Proof. intros Hle. rewrite clamp_take. now apply take_ge. Qed.

Lemma clamp_nonempty s max : s <> [] -> 0 < max -> clamp s max <> [].
Proof.
  intros Hs Hmax. rewrite clamp_take. destruct s, max; try lia; [contradiction|discriminate].
Qed.

Lemma clamp_nil s max : s = [] -> clamp s max = [].
Proof. intros ->. now rewrite clamp_take, take_nil. Qed.

Lemma trim_headOutside s : headOutside isSpace (trim s) = true.
Proof. unfold trim. apply dropWhileEnd_headOutside, dropWhile_is_headOutside. Qed.

Lemma messagesOf_insert_eq bs hp ms : messagesOf (<[hp := ms]> bs) hp = ms.
Proof. unfold messagesOf. now rewrite lookup_insert_eq. Qed.

(** X26: a blank nickname is refused and nothing is stored.  Otherwise the
    stored nickname is the start of the trimmed text: it is not empty,
    has at most 40 code units and does not start with whitespace; for a
    text of at most 40 code units, which is what the field lets in, it is
    the trimmed text, and saving it again stores the same. *)
Theorem saveNickname_spec st :
  let r := saveNickname st in
  (trim (nickname st) = [] -> r = (st, Some "Nickname required"%string))
  /\ (trim (nickname st) <> [] ->
      snd r = None /\ nickSaved (fst r) = true
      /\ storedNick (fst r) = Some (nickname (fst r))
      /\ nickname (fst r) = take 40 (trim (nickname st))
      /\ nickname (fst r) <> []
      /\ length (nickname (fst r)) <= 40
      /\ headOutside isSpace (nickname (fst r)) = true
      /\ (length (nickname st) <= 40 ->
          nickname (fst r) = trim (nickname st)
          /\ saveNickname (fst r) = (fst r, None))).
Proof.
  intros r. unfold r, saveNickname. split.
  - intros He. now rewrite (clamp_nil _ _ He).
  - intros Hne.
    pose proof (clamp_nonempty _ 40 Hne ltac:(lia)) as Hc.
    apply truthy_true in Hc as Ht. rewrite Ht. simpl.
    repeat split; try assumption.
    + apply clamp_take.
    + apply clamp_length.
    + rewrite clamp_take. pose proof (trim_headOutside (nickname st)) as Hh.
      destruct (trim (nickname st)); [contradiction|exact Hh].
    + apply clamp_small. pose proof (length_trim (nickname st)). lia.
    + pose proof (length_trim (nickname st)) as Hl.
      rewrite (clamp_small (trim (nickname st))) by lia.
      rewrite trim_idem. rewrite (clamp_small (trim (nickname st))) by lia.
      apply truthy_true in Hne. now rewrite Hne.
Qed.

Lemma saveNickname_spec_witness :
  saveNickname (nickField (str "   ")) = (nickField (str "   "), Some "Nickname required"%string)
  /\ storedNick (fst (saveNickname (nickField (str " Magnus ")))) = Some (str "Magnus").
Proof.
  destruct (saveNickname_spec (nickField (str "   "))) as (Hblank & _).
  destruct (saveNickname_spec (nickField (str " Magnus "))) as (_ & Hok).
  split; [apply Hblank; vm_compute; reflexivity|].
  destruct Hok as (_ & _ & Hs & _ & _ & _ & _ & Hshort); [vm_compute; discriminate|].
  destruct Hshort as [Hn _]; [vm_compute; lia|].
  rewrite Hs, Hn. vm_compute. reflexivity.
Defined.

(** X27: a blank text sends nothing.  Otherwise one message is put in front
    of the board of the home page: its text is not empty and has at most
    500 code units, its author is not empty and has at most 40, the
    author is "Anonymous" when the nickname is blank, and a text of at
    most 500 code units is sent trimmed and whole.  No other board
    changes. *)
Theorem sendMessage_spec autoId now hp txt nick bs :
  hp <> [] ->
  let r := sendMessage autoId now (Some hp) txt nick bs in
  (trim txt = [] -> r = (bs, NotSent))
  /\ (trim txt <> [] ->
      snd r = SentOne
      /\ exists m,
           messagesOf (fst r) hp = m :: messagesOf bs hp
           /\ id m = autoId
           /\ text m <> [] /\ length (text m) <= 500
           /\ author m <> [] /\ length (author m) <= 40
           /\ (trim nick = [] -> author m = anonymous)
           /\ (length txt <= 500 -> text m = trim txt))
  /\ (forall other, other <> hp -> fst r !! other = bs !! other).
Proof.
  intros Hid r. unfold r, sendMessage. destruct hp as [|c hp]; [contradiction|].
  split; [|split].
  - intros He. now rewrite (clamp_nil _ _ He).
  - intros Hne.
    pose proof (clamp_nonempty _ 500 Hne ltac:(lia)) as Hc.
    apply truthy_true in Hc as Ht. rewrite Ht. simpl.
    split; [reflexivity|]. eexists. rewrite messagesOf_insert_eq.
    split; [reflexivity|]. simpl.
    split; [reflexivity|]. split; [assumption|]. split; [apply clamp_length|].
    split; [|split; [apply clamp_length|split]].
    + apply clamp_nonempty; [|lia].
      destruct (truthy (trim nick)) eqn:Hn; [now apply truthy_true|discriminate].
    + intros Hn. rewrite Hn. reflexivity.
    + intros Hl. apply clamp_small. pose proof (length_trim txt). lia.
  - intros other Hne.
    destruct (truthy (clamp (trim txt) 500)); simpl; [|reflexivity].
    now rewrite lookup_insert_ne.
Qed.

Lemma sendMessage_spec_witness :
  sendMessage (str "m1") 7%N (Some groupA) (str "  ") (str "Magnus") ∅ = (∅, NotSent)
  /\ snd (sendMessage (str "m1") 7%N (Some groupA) (str " hello ") (str " ") ∅) = SentOne.
Proof.
  destruct (sendMessage_spec (str "m1") 7%N groupA (str "  ") (str "Magnus") ∅)
    as (Hblank & _); [vm_compute; discriminate|].
  destruct (sendMessage_spec (str "m1") 7%N groupA (str " hello ") (str " ") ∅)
    as (_ & Hsent & _); [vm_compute; discriminate|].
  split; [apply Hblank; vm_compute; reflexivity|].
  apply Hsent. vm_compute. discriminate.
Defined.

(** X28: a send with an id that is new to the board, followed by the deletion
    of that id, gives the board back; the deletion of an id that is not
    on a board changes no message. *)
Theorem delete_after_send autoId now hp txt nick bs :
  hp <> [] ->
  (forall m, m ∈ messagesOf bs hp -> id m <> autoId) ->
  messagesOf (deleteMessage (Some hp) autoId
                (fst (sendMessage autoId now (Some hp) txt nick bs))) hp
  = messagesOf bs hp
  /\ messagesOf (deleteMessage (Some hp) autoId bs) hp = messagesOf bs hp.
Proof.
  intros Hid Hnew. unfold deleteMessage, sendMessage.
  destruct hp as [|c hp]; [contradiction|].
  rewrite !messagesOf_insert_eq. split; [|now apply ShoppingMore.filter_all].
  destruct (truthy (clamp (trim txt) 500)); simpl.
  - rewrite messagesOf_insert_eq.
    rewrite filter_cons_False by (intros Hne; now apply Hne).
    now apply ShoppingMore.filter_all.
  - now apply ShoppingMore.filter_all.
Qed.

Lemma delete_after_send_witness :
  messagesOf (deleteMessage (Some groupA) (str "m1")
                (fst (sendMessage (str "m1") 7%N (Some groupA) (str "hello") (str "Magnus") ∅)))
    groupA = [].
Proof.
  destruct (delete_after_send (str "m1") 7%N groupA (str "hello") (str "Magnus") ∅)
    as [Hback _].
  - vm_compute. discriminate.
  - intros m Hm. unfold messagesOf in Hm. rewrite lookup_empty in Hm. inversion Hm.
  - rewrite Hback. reflexivity.
Defined.

End MessagesFacts.

(** ** The scope of the service worker *)

Module LayoutFacts.
Import JS Layout.

Lemma split_nonempty sep s : split sep s <> [].
Proof.
  destruct s as [|c r]; simpl; [discriminate|].
  destruct (c =? sep)%N; [discriminate|]. destruct (split sep r); discriminate.
Qed.

Lemma split_cons_other sep c r :
  c <> sep ->
  exists seg segs, split sep r = seg :: segs /\ split sep (c :: r) = (c :: seg) :: segs.
Proof.
  intros Hne. simpl. apply N.eqb_neq in Hne. rewrite Hne.
  destruct (split sep r) as [|seg segs] eqn:Hs; [now destruct (split_nonempty sep r)|].
  eauto.
Qed.

(** A segment without the separator, followed by the end of the string or
    by a separator, is the first piece of the split. *)
Lemma split_segment sep seg rest :
  sep ∉ seg -> (rest = [] \/ exists r, rest = sep :: r) ->
  exists segs, split sep (seg ++ rest) = seg :: segs.
Proof.
  intros Hfree Hrest. induction seg as [|c seg IH]; simpl.
  - destruct Hrest as [->|[r ->]]; simpl; [eauto|].
    rewrite ?N.eqb_refl. eauto.
  - assert (Hc : c <> sep) by (intros ->; apply Hfree; left).
    apply N.eqb_neq in Hc. rewrite Hc.
    destruct IH as [segs Hs]; [intros Hin; apply Hfree; now right|].
    rewrite Hs. eauto.
Qed.

Lemma segments_lead lead s :
  Forall (fun c => c = slash) lead -> segments (lead ++ s) = segments s.
Proof.
  intros Hlead. induction Hlead as [|c lead -> _ IH]; [reflexivity|].
  unfold segments in *. simpl. rewrite ?N.eqb_refl.
  rewrite filter_cons_False by (simpl; discriminate). exact IH.
Qed.

Lemma segments_slashes s : Forall (fun c => c = slash) s -> segments s = [].
Proof.
  intros Hs. rewrite <- (app_nil_r s). rewrite segments_lead by assumption.
  reflexivity.
Qed.

Lemma endsWithSlash_snoc s : endsWithSlash (s ++ [slash]) = true.
Proof.
  unfold endsWithSlash. rewrite map_app. simpl. now rewrite last_last.
Qed.

(** X29: the scope read off the address is a slash when the path has nothing
    but slashes; when the path starts, after slashes, with a segment, it
    is that segment between two slashes.  Either way it starts and ends
    with a slash. *)
Theorem scopeOfPath_spec pathname :
  hd slash (scopeOfPath pathname) = slash
  /\ endsWithSlash (scopeOfPath pathname) = true
  /\ (Forall (fun c => c = slash) pathname -> scopeOfPath pathname = [slash])
  /\ (forall lead seg rest,
        pathname = lead ++ seg ++ rest ->
        Forall (fun c => c = slash) lead ->
        seg <> [] -> slash ∉ seg ->
        (rest = [] \/ exists r, rest = slash :: r) ->
        scopeOfPath pathname = slash :: seg ++ [slash]).
Proof.
  unfold scopeOfPath. split; [|split; [|split]].
  - now destruct (segments pathname).
  - destruct (segments pathname) as [|seg segs]; [reflexivity|].
    apply (endsWithSlash_snoc (slash :: seg)).
  - intros Hall. now rewrite segments_slashes.
  - intros lead seg rest -> Hlead Hne Hfree Hrest.
    rewrite segments_lead by assumption.
    destruct (split_segment slash seg rest Hfree Hrest) as [segs Hs].
    unfold segments. rewrite Hs.
    rewrite filter_cons_True by (now destruct seg). reflexivity.
Qed.

Lemma scopeOfPath_spec_witness :
  scopeOfPath (str "/HomeApp/shopping") = str "/HomeApp/"
  /\ scopeOfPath (str "/") = str "/".
Proof.
  destruct (scopeOfPath_spec (str "/HomeApp/shopping")) as (_ & _ & _ & Hseg).
  destruct (scopeOfPath_spec (str "/")) as (_ & _ & Hroot & _).
  split.
  - apply (Hseg (str "/") (str "HomeApp") (str "/shopping")).
    + reflexivity.
    + repeat constructor.
    + discriminate.
    + vm_compute. intros Hin.
      repeat (apply elem_of_cons in Hin; destruct Hin as [Hin|Hin]; [discriminate|]).
      inversion Hin.
    + right. eexists. reflexivity.
  - apply Hroot. repeat constructor.
Defined.

(** X30: the scope read off the base element ends with a slash, is the
    reference itself when that ends with a slash, and is a slash when
    there is no reference; taken as a reference again, it stays. *)
Theorem scopeOfBase_spec href :
  endsWithSlash (scopeOfBase href) = true
  /\ scopeOfBase (Some (scopeOfBase href)) = scopeOfBase href
  /\ (truthyOpt href = false -> scopeOfBase href = [slash])
  /\ (forall h, href = Some h -> endsWithSlash h = true -> scopeOfBase href = h).
Proof.
  assert (Hends : forall h, endsWithSlash (scopeOfBase h) = true).
  { intros h. unfold scopeOfBase.
    set (base := match h with Some ((_ :: _) as b) => b | _ => [slash] end).
    destruct (endsWithSlash base) eqn:He; [assumption|apply endsWithSlash_snoc]. }
  assert (Hkeep : forall h, endsWithSlash h = true -> scopeOfBase (Some h) = h).
  { intros h Hh. unfold scopeOfBase.
    destruct h as [|c r]; [discriminate|]. now rewrite Hh. }
  split; [apply Hends|]. split; [apply Hkeep, Hends|]. split.
  - destruct href as [[|c r]|]; simpl; try discriminate; reflexivity.
  - intros h -> Hh. now apply Hkeep.
Qed.

Lemma scopeOfBase_spec_witness :
  scopeOfBase (Some (str "/HomeApp/")) = str "/HomeApp/"
  /\ scopeOfBase None = str "/".
Proof.
  destruct (scopeOfBase_spec (Some (str "/HomeApp/"))) as (_ & _ & _ & Hkeep).
  destruct (scopeOfBase_spec None) as (_ & _ & Hnone & _).
  split; [apply (Hkeep (str "/HomeApp/")); reflexivity|].
  apply Hnone. reflexivity.
Defined.

End LayoutFacts.
